(** * LinkedIn posts dashboard: date normalizer and filter/sort pipeline

    A shallow embedding of [src/pages/index.jsx] (parseDateSafe,
    parseRelativeLinkedInDate, parseAnyDate, the [filtered] and [limited]
    memos; formatDateShort, uniqueSorted, truthyInclude, extractCSVList,
    normalizeRow, the rows kept at load, the options of the two dropdowns
    and the selection of MultiSelect) and of [utils/relativeDate.js]
    (parseLinkedInRelative, toISODate), with the properties of the
    specification stated and settled on it, and further properties of the
    code after them.

    Conventions of the embedding.
    - A JavaScript string is the list of its UTF-16 code units ([jsstring]).
    - A JavaScript number that the code computes with is an integer or NaN:
      [Num := option Z], [None] being NaN, and the arithmetic is that of
      the integers.  The doubles of the code agree with it as long as the
      values stay below 2^53; every time value lies within 8.64e15 < 2^53,
      and a quantity large enough to leave that range makes the result an
      Invalid Date in both.
    - A [Date] object is its time value (milliseconds since the epoch, or
      NaN for an Invalid Date).  The date algorithms (Day, DayFromYear,
      MakeDay, TimeClip, ...) follow ECMA-262, section "Date Objects".
    - What the host decides (the fallback grammar of [new Date(string)], the
      collation of [localeCompare], the local time zone, the wall clock) is
      a parameter of the function that consults it. *)

From Stdlib Require Import ZArith NArith Lia String Ascii Sorted.
From stdpp Require Import base tactics option list.

Local Open Scope Z_scope.

(* ===================================================================== *)
(** ** JavaScript strings *)
(* ===================================================================== *)

Module JS.

Definition jsstring := list N.

(** A literal of the source made of ASCII characters. *)
Definition lit (s : string) : jsstring :=
  map N_of_ascii (list_ascii_of_string s).

Definition SPACE : N := 32%N.
Definition MINUS : N := 45%N.
Definition PLUS : N := 43%N.

Definition str_eqb (a b : jsstring) : bool := bool_decide (a = b).

(** [arr.includes(x)] on an array of strings. *)
Definition includes (arr : list jsstring) (x : jsstring) : bool :=
  existsb (str_eqb x) arr.

(** [c >= '0' && c <= '9'] and [c >= 'a' && c <= 'z'] on one code unit. *)
Definition isDigit (c : N) : bool := ((48 <=? c) && (c <=? 57))%N.
Definition isLetter (c : N) : bool := ((97 <=? c) && (c <=? 122))%N.

(** [String.prototype.toLowerCase] on the Basic Latin block; code units
    outside it are left as they are (the Unicode case tables beyond Basic
    Latin are not part of the embedding). *)
Definition lowerUnit (c : N) : N :=
  if ((65 <=? c) && (c <=? 90))%N then (c + 32)%N else c.
Definition toLowerCase (s : jsstring) : jsstring := map lowerUnit s.

(** WhiteSpace and LineTerminator code points of ECMA-262. *)
Definition isWhiteSpace (c : N) : bool :=
  ((9 <=? c) && (c <=? 13) || (c =? 32) || (c =? 160) || (c =? 5760)
   || (8192 <=? c) && (c <=? 8202) || (c =? 8232) || (c =? 8233)
   || (c =? 8239) || (c =? 8287) || (c =? 12288) || (c =? 65279))%N.

Fixpoint trimStart (s : jsstring) : jsstring :=
  match s with
  | c :: s' => if isWhiteSpace c then trimStart s' else s
  | [] => []
  end.
Definition trimEnd (s : jsstring) : jsstring := rev (trimStart (rev s)).
Definition trim (s : jsstring) : jsstring := trimEnd (trimStart s).

(** [s.split(sep)] for a separator of one code unit. *)
Fixpoint split (sep : N) (s : jsstring) : list jsstring :=
  match s with
  | [] => [[]]
  | c :: s' =>
      if (c =? sep)%N then [] :: split sep s'
      else match split sep s' with
           | w :: ws => (c :: w) :: ws
           | [] => [[c]]
           end
  end.

(** [parts.join(sep)]. *)
Fixpoint join (sep : jsstring) (parts : list jsstring) : jsstring :=
  match parts with
  | [] => []
  | [w] => w
  | w :: ws => w ++ sep ++ join sep ws
  end.

Fixpoint startsWith (p s : jsstring) : bool :=
  match p, s with
  | [], _ => true
  | a :: p', b :: s' => (a =? b)%N && startsWith p' s'
  | _ :: _, [] => false
  end.

(** [s.includes(q)]: [q] occurs in [s] as a substring. *)
Fixpoint str_includes (s q : jsstring) : bool :=
  startsWith q s ||
  match s with
  | [] => false
  | _ :: s' => str_includes s' q
  end.

(** Value of a run of decimal digits, most significant first. *)
Definition digitsValue (ds : jsstring) : Z :=
  fold_left (fun acc c => 10 * acc + (Z.of_N c - 48)) ds 0.

Fixpoint takeDigits (s : jsstring) : jsstring :=
  match s with
  | c :: s' => if isDigit c then c :: takeDigits s' else []
  | [] => []
  end.

End JS.
Import JS.

(* ===================================================================== *)
(** ** Numbers and dates *)
(* ===================================================================== *)

Definition Num := option Z.
Definition NaN : Num := None.

(** [Number(s)] for [s] a run of decimal digits, the only strings the code
    applies it to (the pieces of a string matched by the ISO pattern); the
    empty string is 0 and any other string is outside this fragment. *)
Definition Number_ (s : jsstring) : Num :=
  if forallb isDigit s then Some (digitsValue s) else NaN.

(** [parseInt(s, 10)]: leading white space, an optional sign, then the
    longest run of digits; NaN when that run is empty.  The value is the
    exact integer. *)
Definition parseInt10 (s : jsstring) : Num :=
  let s1 := trimStart s in
  let '(sign, s2) :=
    match s1 with
    | c :: r => if (c =? MINUS)%N then (-1, r)
                else if (c =? PLUS)%N then (1, r) else (1, s1)
    | [] => (1, s1)
    end in
  match takeDigits s2 with
  | [] => NaN
  | ds => Some (sign * digitsValue ds)
  end.

(** [isFinite(n)]: not NaN, and the double nearest to the integer is not
    an infinity (integers of magnitude 2^1024 - 2^970 and above round to
    one). *)
Definition isFinite (n : Num) : bool :=
  match n with
  | Some z => Z.abs z <? 2 ^ 1024 - 2 ^ 970
  | None => false
  end.

Module DateAlg.

Definition msPerDay : Z := 86400000.
Definition msPerHour : Z := 3600000.
Definition msPerMinute : Z := 60000.
Definition msPerSecond : Z := 1000.
Definition maxTime : Z := 8640000000000000.

Definition Day (t : Z) : Z := t / msPerDay.
Definition TimeWithinDay (t : Z) : Z := t mod msPerDay.

Definition DaysInYear (y : Z) : Z :=
  if negb (y mod 4 =? 0) then 365
  else if negb (y mod 100 =? 0) then 366
  else if negb (y mod 400 =? 0) then 365
  else 366.

Definition DayFromYear (y : Z) : Z :=
  365 * (y - 1970) + (y - 1969) / 4 - (y - 1901) / 100 + (y - 1601) / 400.

Definition TimeFromYear (y : Z) : Z := msPerDay * DayFromYear y.

(** The largest year whose first day is not after day number [d]: an
    estimate from the mean length of a year, then one step either way. *)
Definition YearFromDay (d : Z) : Z :=
  let y0 := 1970 + (400 * d) / 146097 in
  if DayFromYear (y0 + 1) <=? d then y0 + 1
  else if DayFromYear y0 <=? d then y0
  else y0 - 1.

Definition YearFromTime (t : Z) : Z := YearFromDay (Day t).

Definition InLeapYear (t : Z) : Z :=
  if DaysInYear (YearFromTime t) =? 366 then 1 else 0.

Definition DayWithinYear (t : Z) : Z := Day t - DayFromYear (YearFromTime t).

(** Day number within the year of the first day of month [mn] (0..11). *)
Definition monthStart (leap mn : Z) : Z :=
  if mn <=? 0 then 0
  else if mn =? 1 then 31
  else if mn =? 2 then 59 + leap
  else if mn =? 3 then 90 + leap
  else if mn =? 4 then 120 + leap
  else if mn =? 5 then 151 + leap
  else if mn =? 6 then 181 + leap
  else if mn =? 7 then 212 + leap
  else if mn =? 8 then 243 + leap
  else if mn =? 9 then 273 + leap
  else if mn =? 10 then 304 + leap
  else 334 + leap.

Definition MonthFromTime (t : Z) : Z :=
  let d := DayWithinYear t in
  let leap := InLeapYear t in
  if d <? 31 then 0
  else if d <? 59 + leap then 1
  else if d <? 90 + leap then 2
  else if d <? 120 + leap then 3
  else if d <? 151 + leap then 4
  else if d <? 181 + leap then 5
  else if d <? 212 + leap then 6
  else if d <? 243 + leap then 7
  else if d <? 273 + leap then 8
  else if d <? 304 + leap then 9
  else if d <? 334 + leap then 10
  else 11.

Definition DateFromTime (t : Z) : Z :=
  DayWithinYear t - monthStart (InLeapYear t) (MonthFromTime t) + 1.

Definition HourFromTime (t : Z) : Z := (t / msPerHour) mod 24.
Definition MinFromTime (t : Z) : Z := (t / msPerMinute) mod 60.
Definition SecFromTime (t : Z) : Z := (t / msPerSecond) mod 60.
Definition msFromTime (t : Z) : Z := t mod msPerSecond.

Definition MakeTime (hour min sec ms : Z) : Z :=
  hour * msPerHour + min * msPerMinute + sec * msPerSecond + ms.

(** Day number of [date] in month [month] of [year]; months outside 0..11
    carry into the year. *)
Definition MakeDay (year month date : Z) : Z :=
  let ym := year + month / 12 in
  let mn := month mod 12 in
  let leap := if DaysInYear ym =? 366 then 1 else 0 in
  DayFromYear ym + monthStart leap mn + date - 1.

Definition MakeDate (day time : Z) : Z := day * msPerDay + time.

Definition TimeClip (time : Z) : Num :=
  if maxTime <? Z.abs time then NaN else Some time.

Definition MakeFullYear (y : Z) : Z :=
  if (0 <=? y) && (y <=? 99) then 1900 + y else y.

End DateAlg.
Import DateAlg.

(** A Date object, by its time value. *)
Record Date := mkDate { getTime : Num }.

Definition InvalidDate : Date := mkDate NaN.
Definition DateOfTime (t : Z) : Date := mkDate (Some t).

(** [Date.UTC(year, month, date)]. *)
Definition Date_UTC (year month date : Num) : Num :=
  y ← year; m ← month; dt ← date;
  TimeClip (MakeDate (MakeDay (MakeFullYear y) m dt) (MakeTime 0 0 0 0)).

(** [new Date(value)] for a number. *)
Definition newDateOfNum (v : Num) : Date := mkDate (v ≫= TimeClip).

(** [new Date(d)] for a Date: a fresh object with the same time value. *)
Definition newDateOfDate (d : Date) : Date := mkDate (getTime d).

Definition getUTCFullYear (d : Date) : Num := YearFromTime <$> getTime d.
Definition getUTCMonth (d : Date) : Num := MonthFromTime <$> getTime d.
Definition getUTCDate (d : Date) : Num := DateFromTime <$> getTime d.
Definition getUTCHours (d : Date) : Num := HourFromTime <$> getTime d.
Definition getUTCMinutes (d : Date) : Num := MinFromTime <$> getTime d.
Definition getUTCSeconds (d : Date) : Num := SecFromTime <$> getTime d.
Definition getUTCMilliseconds (d : Date) : Num := msFromTime <$> getTime d.

(** The setters return the object after the assignment. *)
Definition setUTCMinutes (d : Date) (min : Num) : Date :=
  mkDate (t ← getTime d; m ← min;
          TimeClip (MakeDate (Day t)
            (MakeTime (HourFromTime t) m (SecFromTime t) (msFromTime t)))).

Definition setUTCHours (d : Date) (hour : Num) : Date :=
  mkDate (t ← getTime d; h ← hour;
          TimeClip (MakeDate (Day t)
            (MakeTime h (MinFromTime t) (SecFromTime t) (msFromTime t)))).

Definition setUTCDate (d : Date) (date : Num) : Date :=
  mkDate (t ← getTime d; dt ← date;
          TimeClip (MakeDate (MakeDay (YearFromTime t) (MonthFromTime t) dt)
                             (TimeWithinDay t))).

Definition setUTCMonth (d : Date) (month : Num) : Date :=
  mkDate (t ← getTime d; m ← month;
          TimeClip (MakeDate (MakeDay (YearFromTime t) m (DateFromTime t))
                             (TimeWithinDay t))).

(** [setUTCFullYear] starts from time 0 when the date is invalid. *)
Definition setUTCFullYear (d : Date) (year : Num) : Date :=
  let t := default 0 (getTime d) in
  mkDate (y ← year;
          TimeClip (MakeDate (MakeDay y (MonthFromTime t) (DateFromTime t))
                             (TimeWithinDay t))).

Definition num_sub (a b : Num) : Num := x ← a; y ← b; Some (x - y).
Definition num_mul (a b : Num) : Num := x ← a; y ← b; Some (x * y).

(** [a !== b] on numbers: NaN differs from everything, itself included. *)
Definition num_neq (a b : Num) : bool :=
  match a, b with
  | Some x, Some y => negb (x =? y)
  | _, _ => true
  end.

(** [a >= b] on Date objects, through their time values. *)
Definition date_ge (a b : Date) : bool :=
  match getTime a, getTime b with
  | Some x, Some y => y <=? x
  | _, _ => false
  end.

Definition isNaN (n : Num) : bool :=
  match n with Some _ => false | None => true end.

(* ===================================================================== *)
(** ** src/pages/index.jsx: the date normalizer *)
(* ===================================================================== *)

(** [/^\d{4}-\d{2}-\d{2}$/.test(v)]. *)
Definition isoPattern (v : jsstring) : bool :=
  match v with
  | [y1; y2; y3; y4; h1; m1; m2; h2; d1; d2] =>
      isDigit y1 && isDigit y2 && isDigit y3 && isDigit y4
      && (h1 =? MINUS)%N && isDigit m1 && isDigit m2
      && (h2 =? MINUS)%N && isDigit d1 && isDigit d2
  | _ => false
  end.

Section Normalizer.

(** [Date.parse] of the host: ECMA-262 fixes it on the ISO formats and
    leaves every other string to the implementation and its time zone. *)
Variable hostDateParse : jsstring -> Num.

(** [new Date(v)] for a string. *)
Definition newDateOfString (v : jsstring) : Date :=
  mkDate (hostDateParse v ≫= TimeClip).

Definition parseDateSafe (v : jsstring) : option Date :=
  match v with
  | [] => None
  | _ =>
      if isoPattern v then
        let nums := map Number_ (split MINUS v) in
        let y := default NaN (nums !! 0%nat) in
        let m := default NaN (nums !! 1%nat) in
        let d := default NaN (nums !! 2%nat) in
        let dt := newDateOfNum (Date_UTC y (num_sub m (Some 1)) d) in
        if isNaN (getTime dt) then None else Some dt
      else
        let d := newDateOfString v in
        if isNaN (getTime d) then None else Some d
  end.

End Normalizer.

Definition junk : list N := [183; 8226; 8211; 8212; 46]%N.

(** [s.indexOf('  ') !== -1] and [s.replace('  ', ' ')]: the first pair of
    adjacent spaces loses one space; [None] when there is no such pair. *)
Fixpoint replaceDoubleSpace (s : jsstring) : option jsstring :=
  match s with
  | [] => None
  | c :: s' =>
      match s' with
      | c' :: s'' =>
          if (c =? SPACE)%N && (c' =? SPACE)%N then Some (c :: s'')
          else cons c <$> replaceDoubleSpace s'
      | [] => None
      end
  end.

(** The [while] loop collapsing spaces; every turn shortens the string, so
    [fuel] turns suffice when [fuel] is its length. *)
Fixpoint collapseLoop (fuel : nat) (s : jsstring) : jsstring :=
  match fuel with
  | O => s
  | S fuel' =>
      match replaceDoubleSpace s with
      | Some s' => collapseLoop fuel' s'
      | None => s
      end
  end.

Definition collapseSpaces (s : jsstring) : jsstring :=
  collapseLoop (length s) s.

(** The loop of [numUnitSpacing]; [p] is [str[i - 1]], absent at [i = 0]. *)
Fixpoint numUnitSpacingFrom (p : option N) (str : jsstring) : jsstring :=
  match str with
  | [] => []
  | c :: rest =>
      let gap :=
        match p with
        | Some p => isDigit p && isLetter c && negb (p =? SPACE)%N
        | None => false
        end in
      (if gap then [SPACE] else []) ++ c :: numUnitSpacingFrom (Some c) rest
  end.

Definition numUnitSpacing (str : jsstring) : jsstring :=
  numUnitSpacingFrom None str.

Inductive Kind := Kmin | Khr | Kday | Kweek | Kmonth | Kyear.

(** The [map] of unit spellings, in the order of its keys. *)
Definition unitMap : list (Kind * list jsstring) :=
  [ (Kmin, map lit ["min"; "mins"; "minute"; "minutes"; "m"]%string);
    (Khr, map lit ["hr"; "hrs"; "hour"; "hours"; "h"]%string);
    (Kday, map lit ["day"; "days"; "d"]%string);
    (Kweek, map lit ["week"; "weeks"; "wk"; "wks"; "w"]%string);
    (Kmonth, map lit ["month"; "months"; "mo"; "mos"]%string);
    (Kyear, map lit ["yr"; "yrs"; "year"; "years"; "y"]%string) ].

Fixpoint lookupKind (m : list (Kind * list jsstring)) (unit : jsstring)
  : option Kind :=
  match m with
  | [] => None
  | (k, forms) :: m' => if includes forms unit then Some k else lookupKind m' unit
  end.

(** The normalization at the head of [parseRelativeLinkedInDate]. *)
Definition normalizeRelative (v : jsstring) : jsstring :=
  let s := trim (toLowerCase v) in
  let s := fold_left (fun s ch => join [SPACE] (split ch s)) junk s in
  let s := collapseSpaces s in
  numUnitSpacing s.

(** The [switch] on the unit. *)
Definition shiftBack (now : Date) (kind : Kind) (n : Num) : Date :=
  let d := newDateOfDate now in
  match kind with
  | Kmin => setUTCMinutes d (num_sub (getUTCMinutes d) n)
  | Khr => setUTCHours d (num_sub (getUTCHours d) n)
  | Kday => setUTCDate d (num_sub (getUTCDate d) n)
  | Kweek => setUTCDate d (num_sub (getUTCDate d) (num_mul n (Some 7)))
  | Kmonth => setUTCMonth d (num_sub (getUTCMonth d) n)
  | Kyear => setUTCFullYear d (num_sub (getUTCFullYear d) n)
  end.

Definition parseRelativeLinkedInDate (v : jsstring) (now : Date)
  : option Date :=
  match v with
  | [] => None
  | _ =>
      let s := normalizeRelative v in
      if str_eqb s (lit "just now") then Some (newDateOfDate now)
      else if str_eqb s (lit "yesterday") then
        let d := newDateOfDate now in
        Some (setUTCDate d (num_sub (getUTCDate d) (Some 1)))
      else
        let parts := split SPACE s in
        let idx :=
          match parts !! 0%nat with
          | Some p0 =>
              if includes (map lit ["about"; "approx"; "approximately"]%string) p0
              then 1%nat else 0%nat
          | None => 0%nat
          end in
        match parts !! idx with
        | None => None
        | Some q =>
            let n := parseInt10 q in
            if negb (isFinite n) then None
            else
              match parts !! S idx with
              | None => None
              | Some unit =>
                  match lookupKind unitMap unit with
                  | None => None
                  | Some kind => Some (shiftBack now kind n)
                  end
              end
        end
  end.

(** [parseAnyDate]: the relative parser is called without [now], which
    then is [new Date()], the wall clock [clock] at the call. *)
Definition parseAnyDate (hostDateParse : jsstring -> Num) (clock : Z)
    (v : jsstring) : option Date :=
  match parseDateSafe hostDateParse v with
  | Some abs => Some abs
  | None => parseRelativeLinkedInDate v (DateOfTime clock)
  end.

(* ===================================================================== *)
(** ** src/pages/index.jsx: posts, filtering, sorting, limiting *)
(* ===================================================================== *)

(** The object built by [normalizeRow]. *)
Record Post := mkPost {
  include : jsstring;
  dateRaw : jsstring;
  dateObj : option Date;
  author : jsstring;
  title : jsstring;
  summary : jsstring;
  tags : list jsstring;
  url : jsstring
}.

Section Pipeline.

(** [a.localeCompare(b)] of the host: negative, zero or positive. *)
Variable localeCompare : jsstring -> jsstring -> Z.

(** The comparator handed to [sort]. *)
Definition comparePosts (a b : Post) : Num :=
  let at_ := match dateObj a with Some d => getTime d | None => Some 0 end in
  let bt := match dateObj b with Some d => getTime d | None => Some 0 end in
  if num_neq bt at_ then num_sub bt at_
  else
    let s := localeCompare (author a) (author b) in
    if negb (s =? 0) then Some s
    else Some (localeCompare (title a) (title b)).

(** [Array.prototype.sort]: a stable sort; a comparator result that is
    NaN counts as 0.  [x] goes before the first element that it does not
    follow. *)
Definition precedes {A} (cmp : A -> A -> Num) (x y : A) : bool :=
  match cmp x y with
  | Some v => v <=? 0
  | None => true
  end.

Fixpoint sortInsert {A} (cmp : A -> A -> Num) (x : A) (l : list A) : list A :=
  match l with
  | [] => [x]
  | y :: l' => if precedes cmp x y then x :: l else y :: sortInsert cmp x l'
  end.

Definition sort {A} (cmp : A -> A -> Num) (l : list A) : list A :=
  foldr (sortInsert cmp) [] l.

(** The period stage: [cutoff] is the wall clock moved back [period] days. *)
Definition cutoffDate (clock : Z) (period : Z) : Date :=
  let cutoff := DateOfTime clock in
  setUTCDate cutoff (num_sub (getUTCDate cutoff) (Some period)).

Definition inPeriod (cutoff : Date) (r : Post) : bool :=
  match dateObj r with
  | Some d => date_ge d cutoff
  | None => false
  end.

Definition matchesSearch (q : jsstring) (r : Post) : bool :=
  str_includes (toLowerCase (title r)) q
  || str_includes (toLowerCase (author r)) q
  || str_includes (toLowerCase (summary r)) q
  || str_includes (toLowerCase (join (lit ",") (tags r))) q.

Definition nonEmpty {A} (l : list A) : bool :=
  match l with [] => false | _ => true end.

(** The four stages, each guarded by its [if]. *)
Definition authorStage (authors : list jsstring) (out : list Post) : list Post :=
  if nonEmpty authors
  then List.filter (fun r => includes authors (author r)) out else out.

Definition tagStage (tags_ : list jsstring) (out : list Post) : list Post :=
  if nonEmpty tags_
  then List.filter (fun r => existsb (fun t => includes tags_ t) (tags r)) out
  else out.

Definition periodStage (clock : Z) (period : Z) (out : list Post) : list Post :=
  if 0 <? period
  then List.filter (inPeriod (cutoffDate clock period)) out else out.

Definition searchStage (search : jsstring) (out : list Post) : list Post :=
  if nonEmpty (trim search)
  then List.filter (matchesSearch (toLowerCase (trim search))) out else out.

(** The value of [out] when the [sort] is reached. *)
Definition filterStages (clock : Z) (rows : list Post)
    (authors tags_ : list jsstring) (period : Z) (search : jsstring)
  : list Post :=
  searchStage search
    (periodStage clock period (tagStage tags_ (authorStage authors rows))).

(** The [filtered] memo; [clock] is what [new Date()] returns in it. *)
Definition filtered (clock : Z) (rows : list Post)
    (authors tags_ : list jsstring) (period : Z) (search : jsstring)
  : list Post :=
  sort comparePosts (filterStages clock rows authors tags_ period search).

End Pipeline.

(** [arr.slice(0, end)]. *)
Definition slice0 {A} (arr : list A) (end_ : Z) : list A :=
  let len := Z.of_nat (length arr) in
  let final := if end_ <? 0 then Z.max (len + end_) 0 else Z.min end_ len in
  take (Z.to_nat final) arr.

(** The [limited] memo; [!maxResults] holds of 0 among the integers. *)
Definition limited (filtered_ : list Post) (maxResults : Z) : list Post :=
  if (maxResults =? 0) || (maxResults =? -1) then filtered_
  else slice0 filtered_ maxResults.

(** Code-unit order, as a sample of a host collation. *)
Fixpoint codeUnitCompare (a b : jsstring) : Z :=
  match a, b with
  | [], [] => 0
  | [], _ :: _ => -1
  | _ :: _, [] => 1
  | x :: a', y :: b' =>
      if (x <? y)%N then -1 else if (y <? x)%N then 1 else codeUnitCompare a' b'
  end.

(* ===================================================================== *)
(** ** utils/relativeDate.js: the second relative-date parser *)
(* ===================================================================== *)

Module RelativeDate.

(** [\w] of a regular expression. *)
Definition isWordChar (c : N) : bool :=
  isDigit c || isLetter c || ((65 <=? c) && (c <=? 90))%N || (c =? 95)%N.

(** [\b] between the code unit before a position and the one after it. *)
Definition wordBoundary (before after : option N) : bool :=
  xorb (from_option isWordChar false before)
       (from_option isWordChar false after).

(** [s.replace(/pat/g, "")] for a literal pattern: the occurrences met from
    left to right are dropped; [skip] counts the units of the occurrence
    being dropped. *)
Fixpoint removeAllFrom (pat : jsstring) (skip : nat) (s : jsstring)
  : jsstring :=
  match s with
  | [] => []
  | c :: s' =>
      match skip with
      | S k => removeAllFrom pat k s'
      | O =>
          if nonEmpty pat && startsWith pat s
          then removeAllFrom pat (length pat - 1) s'
          else c :: removeAllFrom pat O s'
      end
  end.

(** [s.replace(/\bpat\b/g, "")] for a literal word; [prev] is the code
    unit before the position. *)
Fixpoint removeWordFrom (pat : jsstring) (prev : option N) (skip : nat)
    (s : jsstring) : jsstring :=
  match s with
  | [] => []
  | c :: s' =>
      match skip with
      | S k => removeWordFrom pat (Some c) k s'
      | O =>
          if nonEmpty pat && startsWith pat s
             && wordBoundary prev (Some c)
             && wordBoundary (last pat) (drop (length pat) s !! 0%nat)
          then removeWordFrom pat (Some c) (length pat - 1) s'
          else c :: removeWordFrom pat (Some c) O s'
      end
  end.

(** [s.replace(/\s+/g, " ")]. *)
Fixpoint collapseWhite (inRun : bool) (s : jsstring) : jsstring :=
  match s with
  | [] => []
  | c :: s' =>
      if isWhiteSpace c
      then (if inRun then [] else [SPACE]) ++ collapseWhite true s'
      else c :: collapseWhite false s'
  end.

Definition normalize (input : jsstring) : jsstring :=
  let s := toLowerCase input in
  let s := removeAllFrom (lit "edited") 0 s in
  let s := map (fun c => if (c =? 183)%N || (c =? 8226)%N then SPACE else c) s in
  let s := removeWordFrom (lit "ago") None 0 s in
  let s := collapseWhite false s in
  trim s.

(** A run of [lo] to [hi] digits then the rest, tried longest first. *)
Fixpoint digitsThen (lo extra : nat) (k : jsstring -> bool) (s : jsstring)
  : bool :=
  match lo with
  | S lo' =>
      match s with
      | c :: s' => isDigit c && digitsThen lo' extra k s'
      | [] => false
      end
  | O =>
      match extra with
      | S extra' =>
          match s with
          | c :: s' => (isDigit c && digitsThen O extra' k s') || k s
          | [] => k s
          end
      | O => k s
      end
  end.

Definition charThen (ch : N) (k : jsstring -> bool) (s : jsstring) : bool :=
  match s with
  | c :: s' => (c =? ch)%N && k s'
  | [] => false
  end.

Fixpoint anywhere (m : jsstring -> bool) (s : jsstring) : bool :=
  m s || match s with [] => false | _ :: s' => anywhere m s' end.

(** [/\d{4}-\d{1,2}-\d{1,2}/.test(s)]. *)
Definition looksIso (s : jsstring) : bool :=
  anywhere (digitsThen 4 0 (charThen MINUS (digitsThen 1 1 (charThen MINUS
             (digitsThen 1 1 (fun _ => true)))))) s.

(** [/\d{1,2}\/\d{1,2}\/\d{2,4}/.test(s)]. *)
Definition looksSlashed (s : jsstring) : bool :=
  anywhere (digitsThen 1 1 (charThen 47%N (digitsThen 1 1 (charThen 47%N
             (digitsThen 2 2 (fun _ => true)))))) s.

(** The alternatives of the unit group, in the order a backtracking
    matcher tries them (an optional [s] is tried present first). *)
Definition unitAlternatives : list jsstring :=
  map lit ["yrs"; "yr"; "years"; "year"; "y"; "mos"; "mo"; "months"; "month";
           "mo"; "wks"; "wk"; "weeks"; "week"; "w"; "days"; "day"; "d";
           "hrs"; "hr"; "hours"; "hour"; "h"; "mins"; "min"; "minutes";
           "minute"; "m"]%string.

(** The unit group followed by [\b], at the head of [s]. *)
Definition matchUnit (s : jsstring) : option jsstring :=
  List.find (fun u => startsWith u s
                 && wordBoundary (last u) (drop (length u) s !! 0%nat))
            unitAlternatives.

(** [(\d+)\s*(unit)\b] at the head of [s]: the two groups. *)
Definition matchQtyUnitHere (s : jsstring) : option (jsstring * jsstring) :=
  match takeDigits s with
  | [] => None
  | ds =>
      let rest := drop (length ds) s in
      let fix skipWhite (r : jsstring) : jsstring :=
        match r with
        | c :: r' => if isWhiteSpace c then skipWhite r' else r
        | [] => []
        end in
      pair ds <$> matchUnit (skipWhite rest)
  end.

(** [s.match(...)]: the leftmost position where the pattern matches. *)
Fixpoint matchQtyUnit (s : jsstring) : option (jsstring * jsstring) :=
  match matchQtyUnitHere s with
  | Some m => Some m
  | None => match s with [] => None | _ :: s' => matchQtyUnit s' end
  end.

Section Host.

Variable hostDateParse : jsstring -> Num.
(** LocalTZA(t, isUTC) of ECMA-262: the offset of local time. *)
Variable localTZA : Z -> bool -> Z.

Definition LocalTime (t : Z) : Z := t + localTZA t true.
Definition UTC (t : Z) : Z := t - localTZA t false.

Definition getFullYear (d : Date) : Num := (fun t => YearFromTime (LocalTime t)) <$> getTime d.
Definition getMonth (d : Date) : Num := (fun t => MonthFromTime (LocalTime t)) <$> getTime d.
Definition getDate (d : Date) : Num := (fun t => DateFromTime (LocalTime t)) <$> getTime d.
Definition getHours (d : Date) : Num := (fun t => HourFromTime (LocalTime t)) <$> getTime d.
Definition getMinutes (d : Date) : Num := (fun t => MinFromTime (LocalTime t)) <$> getTime d.

Definition setFullYear (d : Date) (year : Num) : Date :=
  let t := from_option LocalTime 0 (getTime d) in
  mkDate (y ← year;
          TimeClip (UTC (MakeDate (MakeDay y (MonthFromTime t) (DateFromTime t))
                                  (TimeWithinDay t)))).

Definition setMonth (d : Date) (month : Num) : Date :=
  mkDate (t0 ← getTime d; m ← month;
          let t := LocalTime t0 in
          TimeClip (UTC (MakeDate (MakeDay (YearFromTime t) m (DateFromTime t))
                                  (TimeWithinDay t)))).

Definition setDate (d : Date) (date : Num) : Date :=
  mkDate (t0 ← getTime d; dt ← date;
          let t := LocalTime t0 in
          TimeClip (UTC (MakeDate (MakeDay (YearFromTime t) (MonthFromTime t) dt)
                                  (TimeWithinDay t)))).

Definition setHours (d : Date) (hour : Num) : Date :=
  mkDate (t0 ← getTime d; h ← hour;
          let t := LocalTime t0 in
          TimeClip (UTC (MakeDate (Day t)
            (MakeTime h (MinFromTime t) (SecFromTime t) (msFromTime t))))).

Definition setMinutes (d : Date) (min : Num) : Date :=
  mkDate (t0 ← getTime d; m ← min;
          let t := LocalTime t0 in
          TimeClip (UTC (MakeDate (Day t)
            (MakeTime (HourFromTime t) m (SecFromTime t) (msFromTime t))))).

(** The chain of tests on the unit; [None] is its final [else].  The unit
    is one of [unitAlternatives], all letters, so each test is membership
    in the words its pattern accepts: [/^y(ear|rs)?\b|^yrs?$/] accepts y,
    yr, yrs and year (not years: no boundary follows "year" there),
    [/^mo(nth|nths|s)?$/] mo, month, months and mos, and so on. *)
Definition applyUnit (d : Date) (unit : jsstring) (qty : Num) : option Date :=
  if includes (map lit ["y"; "yr"; "yrs"; "year"]%string) unit
  then Some (setFullYear d (num_sub (getFullYear d) qty))
  else if includes (map lit ["mo"; "month"; "months"; "mos"]%string) unit
  then Some (setMonth d (num_sub (getMonth d) qty))
  else if includes (map lit ["w"; "wk"; "wks"; "week"; "weeks"]%string) unit
  then Some (setDate d (num_sub (getDate d) (num_mul qty (Some 7))))
  else if includes (map lit ["d"; "day"; "days"]%string) unit
  then Some (setDate d (num_sub (getDate d) qty))
  else if includes (map lit ["h"; "hr"; "hrs"; "hour"; "hours"]%string) unit
  then Some (setHours d (num_sub (getHours d) qty))
  else if includes (map lit ["m"; "min"; "mins"; "minute"; "minutes"]%string) unit
  then Some (setMinutes d (num_sub (getMinutes d) qty))
  else None.

(** The [posted_at] field of the object that [parseLinkedInRelative]
    returns ([posted_iso] and [posted_age_days] are derived from it). *)
Definition parseLinkedInRelative (input : jsstring) (now : Date)
  : option Date :=
  match input with
  | [] => None
  | _ =>
      let s := normalize input in
      if str_eqb s (lit "just now") || str_eqb s (lit "now") then Some now
      else
        let abs :=
          if looksIso s || looksSlashed s then
            let d := mkDate (hostDateParse s ≫= TimeClip) in
            if isNaN (getTime d) then None else Some d
          else None in
        match abs with
        | Some d => Some d
        | None =>
            match matchQtyUnit s with
            | None => None
            | Some (qty, unit) =>
                applyUnit (newDateOfDate now) unit (parseInt10 qty)
            end
        end
  end.

End Host.

End RelativeDate.

Definition utcHost : Z -> bool -> Z := fun _ _ => 0.
Definition noHostParse : jsstring -> Num := fun _ => NaN.

(* ===================================================================== *)
(** ** src/pages/index.jsx: rows of the CSV and the helpers of the page *)
(* ===================================================================== *)

Definition num_add (a b : Num) : Num := x ← a; y ← b; Some (x + y).

(** The decimal digits of a non-negative integer, most significant
    first; [fuel] bounds the number of digits. *)
Fixpoint decimalDigits (fuel : nat) (n : Z) : jsstring :=
  match fuel with
  | O => []
  | S fuel' =>
      if n <? 10 then [Z.to_N (48 + n)]
      else decimalDigits fuel' (n / 10) ++ [Z.to_N (48 + n mod 10)]
  end.

(** [String(n)], also the conversion inside a template literal, for an
    integer (below 10^21 in magnitude, as every date field is) or NaN. *)
Definition numberToString (n : Num) : jsstring :=
  match n with
  | None => lit "NaN"
  | Some z =>
      if z <? 0 then MINUS :: decimalDigits (S (Z.to_nat (Z.log2 (- z)))) (- z)
      else decimalDigits (S (Z.to_nat (Z.log2 z))) z
  end.

(** [s.padStart(targetLength, fill)] for a filler of one code unit. *)
Definition padStart (targetLength : nat) (fill : N) (s : jsstring) : jsstring :=
  replicate (targetLength - length s) fill ++ s.

(** [formatDateShort]: the argument is a Date, a string, or null (the
    [dateObj] of a post without a date, which the card passes on). *)
Definition formatDateShort (hostDateParse : jsstring -> Num)
    (v : option (Date + jsstring)) : jsstring :=
  let d := match v with
           | Some (inl date) => Some date
           | Some (inr str) => parseDateSafe hostDateParse str
           | None => None
           end in
  match d with
  | None => match v with Some (inr str) => str | _ => [] end
  | Some d =>
      let mm := padStart 2 48 (numberToString (num_add (getUTCMonth d) (Some 1))) in
      let dd := padStart 2 48 (numberToString (getUTCDate d)) in
      let yyyy := numberToString (getUTCFullYear d) in
      yyyy ++ lit "-" ++ mm ++ lit "-" ++ dd
  end.

(** [Array.from(new Set(arr))]: the first occurrence of each string, in
    the order of the array. *)
Fixpoint arrayFromSet (arr : list jsstring) : list jsstring :=
  match arr with
  | [] => []
  | x :: arr' => x :: List.filter (fun y => negb (str_eqb x y)) (arrayFromSet arr')
  end.

(** The comparator [(a, b) => a.localeCompare(b)]. *)
Definition byLocale (localeCompare : jsstring -> jsstring -> Z)
    (a b : jsstring) : Num :=
  Some (localeCompare a b).

Definition uniqueSorted (localeCompare : jsstring -> jsstring -> Z)
    (arr : list jsstring) : list jsstring :=
  sort (byLocale localeCompare) (arrayFromSet (List.filter nonEmpty arr)).

(** [truthyInclude], on the string of a cell. *)
Definition truthyInclude (v : jsstring) : bool :=
  let s := toLowerCase (trim v) in
  match s with
  | [] => true
  | _ => includes (map lit ["y"; "yes"; "1"; "true"]%string) s
  end.

(** A row of the parsed CSV: its own properties, in the order of
    [Object.keys], every value the string of a cell.  The headers are
    taken not to be names of properties of [Object.prototype]. *)
Definition Row := list (jsstring * jsstring).

Definition keysOf (r : Row) : list jsstring := map fst r.

(** [r[k]]; [None] is [undefined]. *)
Fixpoint getProp (r : Row) (k : jsstring) : option jsstring :=
  match r with
  | [] => None
  | (k', v) :: r' => if str_eqb k' k then Some v else getProp r' k
  end.

(** [a || b || ... || ""] on cells: the first that is neither undefined
    nor empty. *)
Fixpoint firstTruthy (cells : list (option jsstring)) : jsstring :=
  match cells with
  | [] => []
  | Some (c :: s) :: _ => c :: s
  | _ :: cells' => firstTruthy cells'
  end.

(** [a ?? b ?? ... ?? ""]: the first that is not undefined. *)
Fixpoint firstDefined (cells : list (option jsstring)) : jsstring :=
  match cells with
  | [] => []
  | Some s :: _ => s
  | None :: cells' => firstDefined cells'
  end.

(** [keyMap[c]] after the [reduce]: the last key whose lower-cased form is
    [c]. *)
Definition keyMapGet (keys : list jsstring) (c : jsstring) : option jsstring :=
  last (List.filter (fun k => str_eqb (toLowerCase k) c) keys).

(** The [for] loop over the candidates. *)
Fixpoint chooseByCandidates (keys candidates : list jsstring)
  : option jsstring :=
  match candidates with
  | [] => None
  | c :: candidates' =>
      match keyMapGet keys c with
      | Some (x :: k) => Some (x :: k)
      | _ => chooseByCandidates keys candidates'
      end
  end.

(** [chosen], with the fall-back to the first key. *)
Definition chooseColumn (keys candidates : list jsstring) : option jsstring :=
  match chooseByCandidates keys candidates with
  | Some k => Some k
  | None =>
      match keys with
      | (x :: k) :: _ => Some (x :: k)
      | _ => None
      end
  end.

Definition extractCSVList (localeCompare : jsstring -> jsstring -> Z)
    (rows : list Row) (candidates : list jsstring) : list jsstring :=
  match rows with
  | [] => []
  | _ =>
      let first := default [] (List.find (fun r => nonEmpty (keysOf r)) rows) in
      match chooseColumn (keysOf first) candidates with
      | None => []
      | Some chosen =>
          let out :=
            List.filter nonEmpty
              (map (fun r => trim (firstTruthy [getProp r chosen])) rows) in
          sort (byLocale localeCompare) (arrayFromSet out)
      end
  end.

(** [s.split(/[,;]+/)]: the pieces between runs of separators;
    [afterSep] tells that the code unit before was a separator. *)
Definition isTagSeparator (c : N) : bool := ((c =? 44) || (c =? 59))%N.

Fixpoint splitOnRuns (isSep : N -> bool) (afterSep : bool) (s : jsstring)
  : list jsstring :=
  match s with
  | [] => [[]]
  | c :: s' =>
      if isSep c then
        (if afterSep then splitOnRuns isSep true s'
         else [] :: splitOnRuns isSep true s')
      else
        match splitOnRuns isSep false s' with
        | w :: ws => (c :: w) :: ws
        | [] => [[c]]
        end
  end.

(** The [tags] of [normalizeRow], from the string of the cell. *)
Definition tagsOfCell (tagsStr : jsstring) : list jsstring :=
  List.filter nonEmpty (map trim (splitOnRuns isTagSeparator false tagsStr)).

(** [normalizeRow]; [clock] is the instant at which [parseAnyDate] is
    reached for this row. *)
Definition normalizeRow (hostDateParse : jsstring -> Num) (clock : Z)
    (r : Row) : Post :=
  let cell k := getProp r (lit k) in
  let include_ := firstDefined [cell "Include"; cell "include"; cell "INCLUDE"]%string in
  let dateRaw_ :=
    trim (firstTruthy [cell "posted_iso"; cell "post_date_iso"; cell "date";
                       cell "posted"]%string) in
  let dateObj_ := parseAnyDate hostDateParse clock dateRaw_ in
  let author_ := trim (firstTruthy [cell "author"; cell "author_name"; cell "Author"]%string) in
  let title_ := trim (firstTruthy [cell "headline"; cell "title"]%string) in
  let summary_ := trim (firstTruthy [cell "summary"; cell "Summary"]%string) in
  let tagsStr := firstTruthy [cell "tags"; cell "Tags"]%string in
  let tags_ := tagsOfCell tagsStr in
  let url_ := trim (firstTruthy [cell "post_url"; cell "url"; cell "href"]%string) in
  mkPost include_ dateRaw_ dateObj_ author_ title_ summary_ tags_ url_.

(** The rows set by [load]: every parsed row normalized, then those kept
    that are included and have a title and a url.  [clockAt i] is the
    instant at which row [i] is normalized. *)
Definition surfaced (r : Post) : bool :=
  truthyInclude (include r) && nonEmpty (title r) && nonEmpty (url r).

Definition loadRows (hostDateParse : jsstring -> Num) (clockAt : nat -> Z)
    (data : list Row) : list Post :=
  List.filter surfaced
    (imap (fun i r => normalizeRow hostDateParse (clockAt i) r) data).

(** [allAuthors], [allTags], and the fall-back lists of the curated
    options (which keep an empty author). *)
Definition allAuthors (lc : jsstring -> jsstring -> Z) (rows : list Post)
  : list jsstring := uniqueSorted lc (map author rows).
Definition allTags (lc : jsstring -> jsstring -> Z) (rows : list Post)
  : list jsstring := uniqueSorted lc (flat_map tags rows).
Definition fallbackAuthors (lc : jsstring -> jsstring -> Z) (rows : list Post)
  : list jsstring := sort (byLocale lc) (arrayFromSet (map author rows)).
Definition fallbackTags (lc : jsstring -> jsstring -> Z) (rows : list Post)
  : list jsstring := sort (byLocale lc) (arrayFromSet (flat_map tags rows)).

(** What the effect of [loadCuratedOptions] leaves in [authorOptions]:
    [authorsCSV] is the parsed curated file, [None] when the fetch gave
    null. *)
Definition authorOptionsOf (lc : jsstring -> jsstring -> Z)
    (authorsCSV : option (list Row)) (rows : list Post) : list jsstring :=
  if nonEmpty rows then
    match authorsCSV with
    | Some csv =>
        extractCSVList lc csv
          (map lit ["author"; "name"; "author_name"; "authors"]%string)
    | None => fallbackAuthors lc rows
    end
  else [].

(** The options handed to the dropdown, also the [allowed] list of the
    pruning effect. *)
Definition offeredOptions (options all : list jsstring) : list jsstring :=
  if nonEmpty options then options else all.

(** [prev.filter(a => allowed.includes(a))]. *)
Definition pruneSelection (allowed prev : list jsstring) : list jsstring :=
  List.filter (includes allowed) prev.

(** [toggle] of MultiSelect, on the [temp] selection. *)
Definition toggle (temp : list jsstring) (item : jsstring) : list jsstring :=
  let s := arrayFromSet temp in
  if includes s item then List.filter (fun y => negb (str_eqb item y)) s
  else s ++ [item].

(** [toISODate] of utils/relativeDate.js, which reads the local fields. *)
Definition toISODate (localTZA : Z -> bool -> Z) (d : option Date)
  : option jsstring :=
  match d with
  | None => None
  | Some d =>
      if isNaN (getTime d) then None
      else
        let y := RelativeDate.getFullYear localTZA d in
        let m := padStart 2 48
                   (numberToString (num_add (RelativeDate.getMonth localTZA d) (Some 1))) in
        let day := padStart 2 48 (numberToString (RelativeDate.getDate localTZA d)) in
        Some (numberToString y ++ lit "-" ++ m ++ lit "-" ++ day)
  end.

(* ===================================================================== *)
(** ** Vocabulary of the properties *)
(* ===================================================================== *)

(** Length of month [m] (1..12) of year [y] in the Gregorian calendar. *)
Definition DaysInMonth (y m : Z) : Z :=
  if m =? 2 then (if DaysInYear y =? 366 then 29 else 28)
  else if (m =? 4) || (m =? 6) || (m =? 9) || (m =? 11) then 30
  else 31.

Definition validCalendarDate (y m d : Z) : Prop :=
  1 <= m <= 12 /\ 1 <= d <= DaysInMonth y m.

(** [t] is the instant 00:00:00.000 UTC of day [d] of month [m] of year
    [y], read through the UTC fields of the time value. *)
Definition isUTCMidnightOf (y m d t : Z) : Prop :=
  YearFromTime t = y /\ MonthFromTime t = m - 1 /\ DateFromTime t = d
  /\ TimeWithinDay t = 0.

(** The three fields of a string of the form YYYY-MM-DD. *)
Definition isoYear (v : jsstring) : Z := digitsValue (take 4 v).
Definition isoMonth (v : jsstring) : Z := digitsValue (take 2 (drop 5 v)).
Definition isoDay (v : jsstring) : Z := digitsValue (drop 8 v).

(** The sort key of a post: its time, 0 when it has no date. *)
Definition timeKey (p : Post) : Z :=
  match dateObj p with
  | Some d => default 0 (getTime d)
  | None => 0
  end.

(** The date of the post, if any, is not an Invalid Date. *)
Definition wellDated (p : Post) : Prop := dateObj p <> Some InvalidDate.

(** What [sort] reads off the comparator: [a] goes before [b] on a
    negative result and after it on a positive one. *)
Definition sortsBefore (lc : jsstring -> jsstring -> Z) (a b : Post) : Prop :=
  exists v, comparePosts lc a b = Some v /\ v < 0.
Definition sortsAfter (lc : jsstring -> jsstring -> Z) (a b : Post) : Prop :=
  exists v, comparePosts lc a b = Some v /\ 0 < v.

(** [a] before [b] in the order "author ascending, then title ascending"
    of a collation [lc]. *)
Definition nameBefore (lc : jsstring -> jsstring -> Z) (a b : Post) : Prop :=
  lc (author a) (author b) < 0
  \/ (lc (author a) (author b) = 0 /\ lc (title a) (title b) < 0).

Definition nameAfter (lc : jsstring -> jsstring -> Z) (a b : Post) : Prop :=
  0 < lc (author a) (author b)
  \/ (lc (author a) (author b) = 0 /\ 0 < lc (title a) (title b)).

(** A post passes every stage that is active. *)
Definition keeps (clock : Z) (authors tags_ : list jsstring) (period : Z)
    (search : jsstring) (r : Post) : bool :=
  (negb (nonEmpty authors) || includes authors (author r))
  && (negb (nonEmpty tags_) || existsb (fun t => includes tags_ t) (tags r))
  && (negb (0 <? period) || inPeriod (cutoffDate clock period) r)
  && (negb (nonEmpty (trim search))
      || matchesSearch (toLowerCase (trim search)) r).


(** A post with the given date, author and title. *)
Definition samplePost (d : option Date) (a t : string) : Post :=
  mkPost (lit "") (lit "") d (lit a) (lit t) (lit "") [] (lit "u").

(** 2024-01-15T00:00:00Z, and one day. *)
Definition jan15 : Z := 1705276800000.
Definition oneDay : Z := 86400000.

(** A collation whose sign flips when its arguments are exchanged, and
    one that is transitive as an order. *)
Definition signAntisymmetric (lc : jsstring -> jsstring -> Z) : Prop :=
  forall a b, Z.sgn (lc b a) = - Z.sgn (lc a b).
Definition collationTransitive (lc : jsstring -> jsstring -> Z) : Prop :=
  forall a b c, lc a b <= 0 -> lc b c <= 0 -> lc a c <= 0.

(** A string of white space only. *)
Definition blank (s : jsstring) : Prop :=
  Forall (fun c => isWhiteSpace c = true) s.

(** A tag as [normalizeRow] leaves it: not empty, without white space
    around it, without a comma or a semicolon. *)
Definition cleanTag (t : jsstring) : Prop :=
  t <> [] /\ trim t = t /\ Forall (fun c => isTagSeparator c = false) t.

(** What stands between two tags of a cell: a comma or a semicolon, then
    white space if any. *)
Definition tagGap (sep : jsstring) : Prop :=
  exists c w, sep = c :: w /\ isTagSeparator c = true /\ blank w.

(** A digit, a lower-case letter or a space. *)
Definition quiet (c : N) : Prop :=
  isDigit c = true \/ isLetter c = true \/ c = SPACE.

(** Proof steps used more than once: the month table at a given month,
    and a list of code units known to be digits. *)
Ltac eval_monthStart :=
  repeat match goal with
         | |- context [monthStart ?l ?k] =>
             let v := eval vm_compute in (monthStart l k) in
             change (monthStart l k) with v
         end.

Ltac all_digits :=
  repeat first [apply Forall_nil_2 | apply Forall_cons_2; [assumption|]].

(** The tests on closed strings, evaluated in place. *)
Ltac eval_closed_tests :=
  repeat match goal with
         | |- context [includes ?a ?b] =>
             let v := eval vm_compute in (includes a b) in
             change (includes a b) with v
         | |- context [str_eqb ?a ?b] =>
             let v := eval vm_compute in (str_eqb a b) in
             change (str_eqb a b) with v
         end.

(* ===================================================================== *)
(** ** The calendar *)
(* ===================================================================== *)

Section Calendar.

Lemma DayFromYear_step y : DayFromYear (y + 1) = DayFromYear y + DaysInYear y.
Proof.
  unfold DayFromYear, DaysInYear.
  repeat match goal with |- context [?a =? ?b] => destruct (Z.eqb_spec a b) end;
  simpl negb; cbv iota; Z.div_mod_to_equations; lia.
Qed.

Lemma DaysInYear_range y : 365 <= DaysInYear y <= 366.
Proof. unfold DaysInYear. repeat case_match; lia. Qed.

Lemma DayFromYear_mono y1 y2 : y1 <= y2 -> DayFromYear y1 <= DayFromYear y2.
Proof. unfold DayFromYear. intros. Z.div_mod_to_equations. lia. Qed.

Lemma DayFromYear_lt y1 y2 : y1 < y2 -> DayFromYear y1 + 365 <= DayFromYear y2.
Proof.
  intros. pose proof (DayFromYear_mono (y1 + 1) y2 ltac:(lia)).
  pose proof (DayFromYear_step y1). pose proof (DaysInYear_range y1). lia.
Qed.

(** [YearFromDay] is the year that contains the day. *)
Lemma YearFromDay_bounds d :
  DayFromYear (YearFromDay d) <= d < DayFromYear (YearFromDay d + 1).
Proof.
  unfold YearFromDay.
  repeat match goal with |- context [?a <=? ?b] => destruct (Z.leb_spec a b) end.
  - split; [lia|]. unfold DayFromYear in *. Z.div_mod_to_equations. lia.
  - lia.
  - split; [|replace (1970 + 400 * d / 146097 - 1 + 1)
               with (1970 + 400 * d / 146097) by lia; lia].
    unfold DayFromYear in *. Z.div_mod_to_equations. lia.
Qed.

Lemma YearFromDay_unique y d :
  DayFromYear y <= d < DayFromYear (y + 1) -> YearFromDay d = y.
Proof.
  intros H. pose proof (YearFromDay_bounds d) as B.
  destruct (Z.lt_trichotomy (YearFromDay d) y) as [Hl|[He|Hg]]; [|done|].
  - pose proof (DayFromYear_mono (YearFromDay d + 1) y ltac:(lia)). lia.
  - pose proof (DayFromYear_mono (y + 1) (YearFromDay d) ltac:(lia)). lia.
Qed.

(** [YearFromTime t] is the largest year that starts at or before [t]. *)
Lemma YearFromTime_spec t :
  TimeFromYear (YearFromTime t) <= t < TimeFromYear (YearFromTime t + 1).
Proof.
  unfold TimeFromYear, YearFromTime.
  pose proof (YearFromDay_bounds (Day t)) as B.
  unfold Day, msPerDay in *. Z.div_mod_to_equations. lia.
Qed.

Lemma time_decompose t :
  MakeDate (Day t)
    (MakeTime (HourFromTime t) (MinFromTime t) (SecFromTime t) (msFromTime t))
  = t.
Proof.
  unfold MakeDate, MakeTime, Day, HourFromTime, MinFromTime, SecFromTime,
    msFromTime, msPerDay, msPerHour, msPerMinute, msPerSecond.
  Z.div_mod_to_equations. lia.
Qed.

Lemma day_decompose t : MakeDate (Day t) (TimeWithinDay t) = t.
Proof.
  unfold MakeDate, Day, TimeWithinDay, msPerDay. Z.div_mod_to_equations. lia.
Qed.

Lemma MonthFromTime_range t : 0 <= MonthFromTime t <= 11.
Proof. unfold MonthFromTime. repeat case_match; lia. Qed.

Lemma leap_bit_range y : 0 <= (if DaysInYear y =? 366 then 1 else 0) <= 1.
Proof. case_match; lia. Qed.

(** The day number of a date given by the fields of [t] itself. *)
Lemma MakeDay_fields t dt :
  MakeDay (YearFromTime t) (MonthFromTime t) dt = Day t - DateFromTime t + dt.
Proof.
  pose proof (MonthFromTime_range t) as R.
  unfold MakeDay.
  replace (MonthFromTime t / 12) with 0 by (Z.div_mod_to_equations; lia).
  replace (MonthFromTime t mod 12) with (MonthFromTime t)
    by (Z.div_mod_to_equations; lia).
  rewrite Z.add_0_r.
  change (if DaysInYear (YearFromTime t) =? 366 then 1 else 0)
    with (InLeapYear t).
  unfold DateFromTime, DayWithinYear. lia.
Qed.

Lemma TimeClip_Some x t : TimeClip x = Some t -> t = x.
Proof. unfold TimeClip. case_match; [done|]. by intros [= <-]. Qed.

Lemma TimeClip_idem x t : TimeClip x = Some t -> TimeClip t = Some t.
Proof.
  unfold TimeClip. case_match eqn:E; [done|]. intros [= <-]. by rewrite E.
Qed.

Lemma TimeClip_in_range x :
  - maxTime <= x <= maxTime -> TimeClip x = Some x.
Proof.
  intros H. unfold TimeClip.
  destruct (Z.ltb_spec maxTime (Z.abs x)); [lia|done].
Qed.

(** Moving a date back through its own field is a subtraction on the
    time value, clipped to the range of dates. *)
Lemma setUTCDate_back t n :
  setUTCDate (DateOfTime t) (num_sub (getUTCDate (DateOfTime t)) (Some n))
  = mkDate (TimeClip (t - n * msPerDay)).
Proof.
  unfold setUTCDate, getUTCDate, num_sub. simpl. f_equal. f_equal.
  rewrite MakeDay_fields. pose proof (day_decompose t) as D.
  unfold MakeDate in *. lia.
Qed.

Lemma setUTCHours_back t n :
  setUTCHours (DateOfTime t) (num_sub (getUTCHours (DateOfTime t)) (Some n))
  = mkDate (TimeClip (t - n * msPerHour)).
Proof.
  unfold setUTCHours, getUTCHours, num_sub. simpl. f_equal. f_equal.
  pose proof (time_decompose t) as D. unfold MakeDate, MakeTime in *. lia.
Qed.

Lemma setUTCMinutes_back t n :
  setUTCMinutes (DateOfTime t) (num_sub (getUTCMinutes (DateOfTime t)) (Some n))
  = mkDate (TimeClip (t - n * msPerMinute)).
Proof.
  unfold setUTCMinutes, getUTCMinutes, num_sub. simpl. f_equal. f_equal.
  pose proof (time_decompose t) as D. unfold MakeDate, MakeTime in *. lia.
Qed.

Lemma monthStart_mono leap m1 m2 :
  0 <= leap <= 1 -> m1 <= m2 -> monthStart leap m1 <= monthStart leap m2.
Proof.
  intros. unfold monthStart.
  repeat match goal with |- context [?a <=? ?b] => destruct (Z.leb_spec a b) end;
  repeat match goal with |- context [?a =? ?b] => destruct (Z.eqb_spec a b) end;
  lia.
Qed.

Lemma monthStart_bound leap m :
  0 <= leap <= 1 -> 0 <= monthStart leap m <= 334 + leap.
Proof. intros. unfold monthStart. repeat case_match; lia. Qed.

Lemma monthStart_leap leap1 leap2 m :
  0 <= leap1 <= 1 -> 0 <= leap2 <= 1 ->
  monthStart leap1 m <= monthStart leap2 m + 1.
Proof. intros. unfold monthStart. repeat case_match; lia. Qed.

(** A month or a year further back never gives a later day. *)
Lemma MakeDay_month_back y m n d :
  0 <= m <= 11 -> 0 <= n -> MakeDay y (m - n) d <= MakeDay y m d.
Proof.
  intros Hm Hn. unfold MakeDay.
  replace (m / 12) with 0 by (Z.div_mod_to_equations; lia).
  replace (m mod 12) with m by (Z.div_mod_to_equations; lia).
  rewrite Z.add_0_r.
  assert ((m - n) / 12 = 0 /\ (m - n) mod 12 = m - n \/ (m - n) / 12 < 0)
    as [[E1 E2]|E] by (Z.div_mod_to_equations; lia).
  - rewrite E1, E2, Z.add_0_r.
    pose proof (monthStart_mono _ (m - n) m (leap_bit_range y) ltac:(lia)). lia.
  - set (y' := y + (m - n) / 12).
    pose proof (DayFromYear_lt y' y ltac:(lia)).
    pose proof (monthStart_bound _ ((m - n) mod 12) (leap_bit_range y')).
    pose proof (monthStart_bound _ m (leap_bit_range y)).
    pose proof (leap_bit_range y'). lia.
Qed.

Lemma MakeDay_year_back y m n d :
  0 <= m <= 11 -> 0 <= n -> MakeDay (y - n) m d <= MakeDay y m d.
Proof.
  intros Hm Hn. unfold MakeDay.
  replace (m / 12) with 0 by (Z.div_mod_to_equations; lia).
  rewrite !Z.add_0_r.
  destruct (Z.eq_dec n 0) as [->|Hne]; [by rewrite Z.sub_0_r|].
  pose proof (DayFromYear_lt (y - n) y ltac:(lia)).
  pose proof (monthStart_leap _ _ (m mod 12)
                (leap_bit_range (y - n)) (leap_bit_range y)).
  lia.
Qed.

End Calendar.

(* ===================================================================== *)
(** ** parseDateSafe on strings of the form YYYY-MM-DD *)
(* ===================================================================== *)

Section IsoDates.

Lemma month_cases m : 1 <= m <= 12 ->
  m = 1 \/ m = 2 \/ m = 3 \/ m = 4 \/ m = 5 \/ m = 6 \/ m = 7 \/ m = 8
  \/ m = 9 \/ m = 10 \/ m = 11 \/ m = 12.
Proof. lia. Qed.

Lemma leap_cases y :
  DaysInYear y = 365 /\ (DaysInYear y =? 366) = false
  \/ DaysInYear y = 366 /\ (DaysInYear y =? 366) = true.
Proof.
  pose proof (DaysInYear_range y).
  destruct (Z.eqb_spec (DaysInYear y) 366); lia.
Qed.

(** [Date.UTC] of a valid calendar date of the years 100 to 9999 is the
    midnight that opens that date. *)
Lemma Date_UTC_calendar y m d :
  100 <= y <= 9999 -> validCalendarDate y m d ->
  exists t, Date_UTC (Some y) (Some (m - 1)) (Some d) = Some t
            /\ isUTCMidnightOf y m d t.
Proof.
  intros Hy [Hm Hd].
  set (leap := if DaysInYear y =? 366 then 1 else 0).
  set (day := DayFromYear y + monthStart leap (m - 1) + d - 1).
  assert (MakeDay y (m - 1) d = day) as HMD.
  { unfold MakeDay.
    replace ((m - 1) / 12) with 0 by (Z.div_mod_to_equations; lia).
    replace ((m - 1) mod 12) with (m - 1) by (Z.div_mod_to_equations; lia).
    by rewrite Z.add_0_r. }
  assert (Day (day * msPerDay) = day) as HD
    by (unfold Day, msPerDay; Z.div_mod_to_equations; lia).
  assert (0 <= monthStart leap (m - 1) + d - 1 < DaysInYear y
          /\ (YearFromTime (day * msPerDay) = y ->
              MonthFromTime (day * msPerDay) = m - 1)) as [Hin HM].
  { unfold MonthFromTime, DayWithinYear, InLeapYear. rewrite HD.
    subst day leap. unfold DaysInMonth in Hd.
    destruct (leap_cases y) as [[L1 L2]|[L1 L2]]; rewrite L2 in *; rewrite L1;
    destruct (month_cases m Hm)
      as [->|[->|[->|[->|[->|[->|[->|[->|[->|[->|[->| ->]]]]]]]]]]];
      simpl in Hd; eval_monthStart; (split; [lia|]); intros ->; rewrite L2;
      repeat match goal with
             | |- context [?a <? ?b] => destruct (Z.ltb_spec a b)
             end; lia. }
  exists (day * msPerDay). split.
  - unfold Date_UTC. simpl. unfold MakeFullYear.
    replace ((0 <=? y) && (y <=? 99)) with false by lia.
    rewrite HMD. unfold MakeTime, MakeDate, TimeClip.
    replace (maxTime <? _) with false; [f_equal; lia|].
    symmetry. apply Z.ltb_ge. pose proof (DaysInYear_range y).
    pose proof (DayFromYear_mono 100 y ltac:(lia)).
    pose proof (DayFromYear_mono y 9999 ltac:(lia)).
    change (DayFromYear 100) with (-683003) in *.
    change (DayFromYear 9999) with 2932532 in *.
    unfold maxTime, msPerDay. subst day. lia.
  - assert (YearFromTime (day * msPerDay) = y) as HY.
    { unfold YearFromTime. rewrite HD. apply YearFromDay_unique.
      rewrite DayFromYear_step. subst day. lia. }
    repeat split; [done|by apply HM| |].
    + unfold DateFromTime, DayWithinYear, InLeapYear. rewrite (HM HY), HD, HY.
      subst day leap. lia.
    + unfold TimeWithinDay, msPerDay. Z.div_mod_to_equations. lia.
Qed.

Lemma isDigit_not_minus c : isDigit c = true -> (c =? MINUS)%N = false.
Proof.
  unfold isDigit, MINUS. intros [?%N.leb_le ?%N.leb_le]%andb_prop.
  apply N.eqb_neq. lia.
Qed.

Lemma isDigit_value c : isDigit c = true -> 0 <= Z.of_N c - 48 <= 9.
Proof. unfold isDigit. intros [?%N.leb_le ?%N.leb_le]%andb_prop. lia. Qed.

Lemma isoPattern_inv v :
  isoPattern v = true ->
  exists y1 y2 y3 y4 m1 m2 d1 d2,
    v = [y1; y2; y3; y4; MINUS; m1; m2; MINUS; d1; d2]
    /\ Forall (fun c => isDigit c = true) [y1; y2; y3; y4; m1; m2; d1; d2].
Proof.
  unfold isoPattern.
  do 11 (destruct v as [|? v]; try discriminate).
  rewrite !andb_true_iff. intros H. destruct_and!.
  repeat match goal with
         | H : (_ =? MINUS)%N = true |- _ => apply N.eqb_eq in H; subst
         end.
  eexists _, _, _, _, _, _, _, _. split; [reflexivity|]. all_digits.
Qed.

Lemma Number_digits l :
  Forall (fun c => isDigit c = true) l -> Number_ l = Some (digitsValue l).
Proof.
  intros Hl. unfold Number_.
  replace (forallb isDigit l) with true; [done|].
  symmetry. apply forallb_forall. intros x Hx. rewrite Forall_forall in Hl.
  apply Hl. by apply list_elem_of_In.
Qed.

(** On a string that matches the pattern the function is [Date.UTC] of its
    three fields; the host's parser is not consulted. *)
Lemma parseDateSafe_iso_Date_UTC host v :
  isoPattern v = true ->
  parseDateSafe host v =
    let dt := newDateOfNum
                (Date_UTC (Some (isoYear v)) (Some (isoMonth v - 1))
                          (Some (isoDay v))) in
    if isNaN (getTime dt) then None else Some dt.
Proof.
  intros Hp. destruct (isoPattern_inv v Hp) as (y1&y2&y3&y4&m1&m2&d1&d2&->&Hd).
  unfold parseDateSafe. rewrite Hp.
  repeat match goal with
         | H : Forall _ (_ :: _) |- _ => apply Forall_cons in H as [? H]
         end.
  assert (split MINUS [y1; y2; y3; y4; MINUS; m1; m2; MINUS; d1; d2]
          = [[y1; y2; y3; y4]; [m1; m2]; [d1; d2]]) as ->.
  { cbn [split].
    rewrite (isDigit_not_minus y1), (isDigit_not_minus y2),
      (isDigit_not_minus y3), (isDigit_not_minus y4), (isDigit_not_minus m1),
      (isDigit_not_minus m2), (isDigit_not_minus d1), (isDigit_not_minus d2)
      by assumption.
    reflexivity. }
  cbn [map]. rewrite !Number_digits by all_digits.
  reflexivity.
Qed.

Lemma isoYear_bound v : isoPattern v = true -> 0 <= isoYear v <= 9999.
Proof.
  intros Hp. destruct (isoPattern_inv v Hp) as (y1&y2&y3&y4&m1&m2&d1&d2&->&Hd).
  repeat match goal with
         | H : Forall _ (_ :: _) |- _ =>
             apply Forall_cons in H as [?%isDigit_value H]
         end.
  unfold isoYear, digitsValue. cbn [take fold_left]. lia.
Qed.

(** For the years 0100 to 9999 the strict ISO path returns the UTC
    midnight of the calendar date, whatever the host's parser and time
    zone are. *)
Lemma parseDateSafe_iso_utc_midnight host v :
  isoPattern v = true ->
  100 <= isoYear v ->
  validCalendarDate (isoYear v) (isoMonth v) (isoDay v) ->
  exists t, parseDateSafe host v = Some (DateOfTime t)
            /\ isUTCMidnightOf (isoYear v) (isoMonth v) (isoDay v) t.
Proof.
  intros Hp Hy Hv. pose proof (isoYear_bound v Hp) as Hb.
  destruct (Date_UTC_calendar _ _ _ (conj Hy (proj2 Hb)) Hv) as (t & Ht & Hm).
  exists t. split; [|done].
  assert (TimeClip t = Some t) as E.
  { unfold Date_UTC in Ht. simpl in Ht. by eapply TimeClip_idem. }
  rewrite parseDateSafe_iso_Date_UTC by done. rewrite Ht.
  unfold newDateOfNum. simpl. by rewrite E.
Qed.

(** X1.  For every string of the form YYYY-MM-DD that names a valid
    calendar date of a year from 0100 to 9999, [parseAnyDate] returns the
    UTC midnight of that date, whatever the parser of the host, its time
    zone and the wall clock are: the absolute path comes first and does
    not consult them. *)
Lemma parseAnyDate_iso_utc_midnight host clock v :
  isoPattern v = true ->
  100 <= isoYear v ->
  validCalendarDate (isoYear v) (isoMonth v) (isoDay v) ->
  exists t, parseAnyDate host clock v = Some (DateOfTime t)
            /\ isUTCMidnightOf (isoYear v) (isoMonth v) (isoDay v) t.
Proof.
  intros Hp Hy Hv.
  destruct (parseDateSafe_iso_utc_midnight host v Hp Hy Hv) as (t & E & M).
  exists t. split; [|done]. unfold parseAnyDate. by rewrite E.
Qed.

Lemma parseAnyDate_iso_utc_midnight_witness :
  exists t, parseAnyDate noHostParse jan15 (lit "2023-11-30") = Some (DateOfTime t)
            /\ isUTCMidnightOf 2023 11 30 t.
Proof.
  apply (parseAnyDate_iso_utc_midnight noHostParse jan15 (lit "2023-11-30")).
  - reflexivity.
  - vm_compute. discriminate.
  - repeat split; vm_compute; discriminate.
Defined.

Lemma parseDateSafe_iso_utc_midnight_witness :
  exists t, parseDateSafe noHostParse (lit "2024-02-29") = Some (DateOfTime t)
            /\ isUTCMidnightOf 2024 2 29 t.
Proof.
  apply (parseDateSafe_iso_utc_midnight noHostParse (lit "2024-02-29")).
  - reflexivity.
  - vm_compute. discriminate.
  - repeat split; vm_compute; discriminate.
Defined.

(** C1 (the code departs from the claim on the years 0000 to 0099).  The
    string 0050-03-15 has the strict ISO form and names a valid calendar
    date, 15 March of the year 50; under every host parser the function
    returns the midnight of 15 March 1950, because [Date.UTC] reads a year
    between 0 and 99 as 1900 plus that year.  The instant returned is not
    the midnight of the date written. *)
Theorem parseDateSafe_two_digit_year :
  forall host clock,
    isoPattern (lit "0050-03-15") = true
    /\ validCalendarDate 50 3 15
    /\ parseDateSafe host (lit "0050-03-15") = Some (DateOfTime (-624844800000))
    /\ parseAnyDate host clock (lit "0050-03-15")
       = Some (DateOfTime (-624844800000))
    /\ isUTCMidnightOf 1950 3 15 (-624844800000)
    /\ ~ isUTCMidnightOf 50 3 15 (-624844800000).
Proof.
  intros host clock.
  assert (parseDateSafe host (lit "0050-03-15")
          = Some (DateOfTime (-624844800000))) as E.
  { rewrite parseDateSafe_iso_Date_UTC by reflexivity. reflexivity. }
  split; [reflexivity|]. split; [repeat split; vm_compute; discriminate|].
  split; [exact E|]. split; [unfold parseAnyDate; by rewrite E|].
  split; [repeat split; reflexivity|].
  intros [H _]. vm_compute in H. discriminate.
Qed.

End IsoDates.

(* ===================================================================== *)
(** ** The relative-date parsers *)
(* ===================================================================== *)

Section RelativePhrases.

(** The loop that collapses spaces ends because no pair of spaces is
    left, not because its fuel ran out. *)
Lemma replaceDoubleSpace_length s s' :
  replaceDoubleSpace s = Some s' -> S (length s') = length s.
Proof.
  revert s'. induction s as [|x s IH]; intros s'; [done|].
  cbn [replaceDoubleSpace]. destruct s as [|y s]; [done|].
  destruct ((x =? SPACE)%N && (y =? SPACE)%N).
  - by intros [= <-].
  - destruct (replaceDoubleSpace (y :: s)) as [r|]; [|done].
    intros [= <-]. simpl. f_equal. by apply IH.
Qed.

Lemma collapseLoop_done fuel s :
  (length s <= fuel)%nat -> replaceDoubleSpace (collapseLoop fuel s) = None.
Proof.
  revert s. induction fuel as [|fuel IH]; intros s Hs; simpl.
  - by destruct s; [|simpl in Hs; lia].
  - destruct (replaceDoubleSpace s) as [s'|] eqn:E; [|done].
    apply IH. apply replaceDoubleSpace_length in E. lia.
Qed.

Lemma collapseSpaces_done s : replaceDoubleSpace (collapseSpaces s) = None.
Proof. by apply collapseLoop_done. Qed.

(** The two literal phrases of [parseRelativeLinkedInDate]. *)
Lemma parseRelative_just_now v now :
  v <> [] -> normalizeRelative v = lit "just now" ->
  parseRelativeLinkedInDate v now = Some (newDateOfDate now).
Proof.
  intros Hv E. unfold parseRelativeLinkedInDate. destruct v; [done|].
  rewrite E. reflexivity.
Qed.

Lemma parseRelative_yesterday v T :
  v <> [] -> normalizeRelative v = lit "yesterday" ->
  parseRelativeLinkedInDate v (DateOfTime T)
  = Some (mkDate (TimeClip (T - 1 * msPerDay))).
Proof.
  intros Hv E. rewrite <- setUTCDate_back.
  unfold parseRelativeLinkedInDate. destruct v; [done|].
  rewrite E. reflexivity.
Qed.

(** "yesterday" is the instant one day before [T], for every [T] that
    leaves room for it in the range of dates. *)
Lemma yesterday_one_day_back T :
  - maxTime <= T - msPerDay -> T <= maxTime ->
  parseRelativeLinkedInDate (lit "Yesterday") (DateOfTime T)
  = Some (DateOfTime (T - msPerDay)).
Proof.
  intros H1 H2. rewrite parseRelative_yesterday by done.
  rewrite TimeClip_in_range by (unfold msPerDay, maxTime in *; lia).
  reflexivity.
Qed.

Lemma yesterday_one_day_back_witness :
  parseRelativeLinkedInDate (lit "Yesterday") (DateOfTime jan15)
  = Some (DateOfTime (jan15 - msPerDay)).
Proof.
  apply (yesterday_one_day_back jan15); vm_compute; discriminate.
Defined.

(** C5 (the parser of index.jsx does not know the bare phrase "now").
    For every [T]: [parseRelativeLinkedInDate] maps "just now" to [T] but
    returns null on "now", which it reads as a quantity that is not a
    number; the second parser, [parseLinkedInRelative], maps "now" to [T]
    and in turn has no "yesterday".  A full stop after "just now" is
    turned into a space after the trimming, so "just now." is not
    recognized either. *)
Theorem bare_now_not_recognized :
  forall T,
    parseRelativeLinkedInDate (lit "now") (DateOfTime T) = None
    /\ parseRelativeLinkedInDate (lit "just now") (DateOfTime T)
       = Some (DateOfTime T)
    /\ parseRelativeLinkedInDate (lit "Just  NOW") (DateOfTime T)
       = Some (DateOfTime T)
    /\ parseRelativeLinkedInDate (lit "just now.") (DateOfTime T) = None
    /\ (forall host tz,
          RelativeDate.parseLinkedInRelative host tz (lit "now") (DateOfTime T)
          = Some (DateOfTime T))
    /\ (forall host tz,
          RelativeDate.parseLinkedInRelative host tz (lit "yesterday")
            (DateOfTime T) = None).
Proof. intros T. repeat split; intros; reflexivity. Qed.

(** C6 (the normalization of index.jsx strips neither "ago" nor
    "edited").  The word "edited" in front of "2 h" makes
    [parseRelativeLinkedInDate] return null where "2 h" alone parses, and
    so does a leading "ago"; its normalization leaves both words in place
    and replaces every full stop, not only a trailing one.  The second
    parser removes the words first and gives the two inputs one result,
    but leaves dashes and full stops alone. *)
Theorem edited_word_changes_result :
  forall now,
    parseRelativeLinkedInDate (lit "edited 2 h") now = None
    /\ parseRelativeLinkedInDate (lit "ago 2 h") now = None
    /\ parseRelativeLinkedInDate (lit "2 h") now
       = Some (shiftBack now Khr (Some 2))
    /\ normalizeRelative (lit "Edited 2 h ago") = lit "edited 2 h ago"
    /\ normalizeRelative (lit "1.5 h") = lit "1 5 h"
    /\ (forall host tz,
          RelativeDate.parseLinkedInRelative host tz (lit "edited 2 h") now
          = RelativeDate.parseLinkedInRelative host tz (lit "2 h") now)
    /\ RelativeDate.normalize (lit "Edited 2 h ago.") = lit "2 h .".
Proof. intros now. repeat split; intros; reflexivity. Qed.

(** C8 (a signed quantity moves the date forward).  On "-5 days" the
    relative path of index.jsx returns the instant five days after [now],
    since [parseInt] accepts the sign; the second parser reads the digits
    only and returns five days before.  On a quantity that leaves the
    range of dates it returns an Invalid Date object, which no comparison
    places at or before [now]. *)
Theorem parseRelative_negative_quantity :
  parseRelativeLinkedInDate (lit "-5 days") (DateOfTime jan15)
  = Some (DateOfTime (jan15 + 5 * oneDay))
  /\ ~ (jan15 + 5 * oneDay <= jan15)
  /\ RelativeDate.parseLinkedInRelative noHostParse utcHost (lit "-5 days")
       (DateOfTime jan15)
     = Some (DateOfTime (jan15 - 5 * oneDay))
  /\ parseRelativeLinkedInDate (lit "300000 years") (DateOfTime jan15)
     = Some InvalidDate
  /\ date_ge (DateOfTime jan15) InvalidDate = false.
Proof.
  split; [vm_compute; reflexivity|]. split; [vm_compute; by intros []|].
  split; [vm_compute; reflexivity|]. split; vm_compute; reflexivity.
Qed.

End RelativePhrases.

(* ===================================================================== *)
(** ** Relative phrases without a sign never lie after [now] *)
(* ===================================================================== *)

Section NotAfterNow.

Lemma shiftBack_not_after t0 kind n t :
  0 <= n ->
  getTime (shiftBack (DateOfTime t0) kind (Some n)) = Some t ->
  t <= t0.
Proof.
  intros Hn. unfold shiftBack.
  change (newDateOfDate (DateOfTime t0)) with (DateOfTime t0).
  destruct kind.
  - rewrite setUTCMinutes_back. simpl. intros ->%TimeClip_Some.
    unfold msPerMinute. lia.
  - rewrite setUTCHours_back. simpl. intros ->%TimeClip_Some.
    unfold msPerHour. lia.
  - rewrite setUTCDate_back. simpl. intros ->%TimeClip_Some.
    unfold msPerDay. lia.
  - change (num_mul (Some n) (Some 7)) with (Some (n * 7)).
    rewrite setUTCDate_back. simpl. intros ->%TimeClip_Some.
    unfold msPerDay. lia.
  - unfold setUTCMonth, getUTCMonth, num_sub. simpl. intros ->%TimeClip_Some.
    pose proof (MakeDay_month_back (YearFromTime t0) (MonthFromTime t0) n
                  (DateFromTime t0) (MonthFromTime_range t0) Hn) as M.
    rewrite (MakeDay_fields t0 (DateFromTime t0)) in M.
    pose proof (day_decompose t0) as D. unfold MakeDate, msPerDay in *. lia.
  - unfold setUTCFullYear, getUTCFullYear, num_sub. simpl.
    intros ->%TimeClip_Some.
    pose proof (MakeDay_year_back (YearFromTime t0) (MonthFromTime t0) n
                  (DateFromTime t0) (MonthFromTime_range t0) Hn) as M.
    rewrite (MakeDay_fields t0 (DateFromTime t0)) in M.
    pose proof (day_decompose t0) as D. unfold MakeDate, msPerDay in *. lia.
Qed.

Lemma trimStart_suffix s : exists p, s = p ++ trimStart s.
Proof.
  induction s as [|c s [p IH]]; simpl; [by exists []|].
  destruct (isWhiteSpace c); [|by exists []].
  exists (c :: p). simpl. by f_equal.
Qed.

Lemma trimStart_elem c s : c ∈ trimStart s -> c ∈ s.
Proof.
  destruct (trimStart_suffix s) as [p E]. rewrite E at 2.
  rewrite elem_of_app. by right.
Qed.

Lemma trim_elem c s : c ∈ trim s -> c ∈ s.
Proof.
  unfold trim, trimEnd. intros H.
  apply list_elem_of_In in H. apply in_rev in H. apply list_elem_of_In in H.
  apply trimStart_elem in H.
  apply list_elem_of_In in H. apply in_rev in H. apply list_elem_of_In in H.
  by apply trimStart_elem.
Qed.

Lemma split_elem sep s w c : w ∈ split sep s -> c ∈ w -> c ∈ s.
Proof.
  revert w. induction s as [|x s IH]; simpl; intros w Hw Hc.
  - apply list_elem_of_singleton in Hw as ->. done.
  - destruct (x =? sep)%N.
    + apply elem_of_cons in Hw as [->|Hw]; [by apply elem_of_nil in Hc|].
      right. by eapply IH.
    + destruct (split sep s) as [|w0 ws] eqn:E.
      * apply list_elem_of_singleton in Hw as ->.
        apply list_elem_of_singleton in Hc as ->. left.
      * apply elem_of_cons in Hw as [->|Hw].
        -- apply elem_of_cons in Hc as [->|Hc]; [left|].
           right. apply (IH w0); [left|done].
        -- right. apply (IH w); [by right|done].
Qed.

Lemma join_elem sep parts c :
  c ∈ join sep parts -> c ∈ sep \/ exists w, w ∈ parts /\ c ∈ w.
Proof.
  induction parts as [|w ws IH]; simpl; [by intros ?%elem_of_nil|].
  destruct ws as [|w' ws'].
  - intros H. right. exists w. split; [left|done].
  - rewrite !elem_of_app. intros [H|[H|H]].
    + right. exists w. split; [left|done].
    + by left.
    + destruct (IH H) as [?|(w0 & ? & ?)]; [by left|].
      right. exists w0. split; [by right|done].
Qed.

Lemma replace_junk_elem chars s c :
  c ∈ fold_left (fun s ch => join [SPACE] (split ch s)) chars s ->
  c = SPACE \/ c ∈ s.
Proof.
  revert s. induction chars as [|ch chars IH]; simpl; intros s H; [by right|].
  destruct (IH _ H) as [?|[H'|(w & Hw & Hc)]%join_elem]; [by left| |].
  - left. by apply list_elem_of_singleton in H'.
  - right. by eapply split_elem.
Qed.

Lemma replaceDoubleSpace_elem s s' c :
  replaceDoubleSpace s = Some s' -> c ∈ s' -> c ∈ s.
Proof.
  revert s'. induction s as [|x s IH]; intros s'; [done|].
  cbn [replaceDoubleSpace]. destruct s as [|y s]; [done|].
  destruct ((x =? SPACE)%N && (y =? SPACE)%N).
  - intros [= <-]. rewrite !elem_of_cons.
    intros [->|H]; [by left|right; by right].
  - destruct (replaceDoubleSpace (y :: s)) as [r|]; [|done].
    intros [= <-]. rewrite !elem_of_cons. intros [->|H]; [by left|].
    right. specialize (IH r eq_refl H). by apply elem_of_cons in IH.
Qed.

Lemma collapseLoop_elem fuel s c : c ∈ collapseLoop fuel s -> c ∈ s.
Proof.
  revert s. induction fuel as [|fuel IH]; simpl; intros s; [done|].
  destruct (replaceDoubleSpace s) as [s'|] eqn:E; [|done].
  intros H. eapply replaceDoubleSpace_elem; [exact E|]. by apply IH.
Qed.

Lemma numUnitSpacingFrom_elem p s c :
  c ∈ numUnitSpacingFrom p s -> c = SPACE \/ c ∈ s.
Proof.
  revert p. induction s as [|x s IH]; intros p; simpl;
    [by intros ?%elem_of_nil|].
  rewrite elem_of_app, elem_of_cons. intros [H|[->|H]].
  - left. case_match;
      [by apply list_elem_of_singleton in H|by apply elem_of_nil in H].
  - right. left.
  - destruct (IH _ H); [by left|right; by right].
Qed.

Lemma lowerUnit_minus c : lowerUnit c = MINUS -> c = MINUS.
Proof.
  unfold lowerUnit, MINUS.
  destruct ((65 <=? c)%N && (c <=? 90)%N) eqn:E; [|done].
  apply andb_prop in E as [?%N.leb_le ?%N.leb_le]. lia.
Qed.

(** The normalization brings in no minus sign. *)
Lemma normalizeRelative_minus v :
  MINUS ∈ normalizeRelative v -> MINUS ∈ v.
Proof.
  unfold normalizeRelative, numUnitSpacing, collapseSpaces.
  intros [H|H]%numUnitSpacingFrom_elem; [done|].
  apply collapseLoop_elem, replace_junk_elem in H as [H|H]; [done|].
  apply trim_elem in H. unfold toLowerCase in H.
  apply list_elem_of_fmap in H as (c & E & Hc).
  symmetry in E. apply lowerUnit_minus in E. by subst.
Qed.

Lemma digitsValue_nonneg ds :
  Forall (fun c => isDigit c = true) ds -> 0 <= digitsValue ds.
Proof.
  unfold digitsValue.
  assert (forall acc, 0 <= acc -> Forall (fun c => isDigit c = true) ds ->
          0 <= fold_left (fun acc c => 10 * acc + (Z.of_N c - 48)) ds acc) as G.
  { induction ds as [|c ds IH]; simpl; intros a Ha Hd; [done|].
    apply Forall_cons in Hd as [Hc Hd]. apply IH; [|done].
    apply isDigit_value in Hc. lia. }
  intros H. by apply G.
Qed.

Lemma takeDigits_digits s : Forall (fun c => isDigit c = true) (takeDigits s).
Proof.
  induction s as [|c s IH]; simpl; [constructor|].
  destruct (isDigit c) eqn:E; by constructor.
Qed.

(** Without a minus sign [parseInt] gives no negative number. *)
Lemma parseInt10_nonneg q n :
  MINUS ∉ q -> parseInt10 q = Some n -> 0 <= n.
Proof.
  intros Hq. unfold parseInt10.
  assert (forall s, takeDigits s <> [] ->
            Some (1 * digitsValue (takeDigits s)) = Some n -> 0 <= n) as G.
  { intros s _ [= <-].
    pose proof (digitsValue_nonneg _ (takeDigits_digits s)). lia. }
  destruct (trimStart q) as [|c r] eqn:E.
  - simpl. done.
  - destruct (N.eqb_spec c MINUS) as [->|Hc].
    + exfalso. apply Hq, trimStart_elem. rewrite E. left.
    + destruct (c =? PLUS)%N.
      * destruct (takeDigits r) eqn:Er; [done|].
        rewrite <- Er. apply G. by rewrite Er.
      * destruct (takeDigits (c :: r)) eqn:Er; [done|].
        rewrite <- Er. apply G. by rewrite Er.
Qed.

(** X2.  Every input without a minus sign that the relative path of
    index.jsx accepts yields, when the date it returns is valid, an instant at or
    before [now]: minutes, hours, days and weeks by subtraction, months
    and years on the calendar fields. *)
Lemma parseRelative_not_after v t0 d t :
  MINUS ∉ v ->
  parseRelativeLinkedInDate v (DateOfTime t0) = Some d ->
  getTime d = Some t ->
  t <= t0.
Proof.
  intros Hv. unfold parseRelativeLinkedInDate. cbv zeta.
  destruct v as [|c0 v0] eqn:Ev; [done|]. rewrite <- Ev in *. clear Ev.
  set (s := normalizeRelative v).
  assert (MINUS ∉ s) as Hs by (intros H; by apply Hv, normalizeRelative_minus).
  destruct (str_eqb s (lit "just now")).
  { intros [= <-]. simpl. intros [= <-]. lia. }
  destruct (str_eqb s (lit "yesterday")).
  { intros [= <-] H.
    assert (TimeClip (t0 - 1 * msPerDay) = Some t) as ->%TimeClip_Some.
    { rewrite <- H.
      change (TimeClip (t0 - 1 * msPerDay))
        with (getTime (mkDate (TimeClip (t0 - 1 * msPerDay)))).
      by rewrite <- (setUTCDate_back t0 1). }
    unfold msPerDay. lia. }
  set (idx := match split SPACE s !! 0%nat with
              | Some p0 => _ | None => _ end). clearbody idx.
  destruct (split SPACE s !! idx) as [q|] eqn:Eq; [|done].
  destruct (isFinite (parseInt10 q)) eqn:Ef; [|done]. cbn [negb].
  destruct (split SPACE s !! S idx) as [u|]; [|done].
  destruct (lookupKind unitMap u) as [kind|]; [|done].
  intros [= <-].
  destruct (parseInt10 q) as [n|] eqn:En; [|done].
  apply shiftBack_not_after. eapply parseInt10_nonneg; [|exact En].
  intros Hm. apply Hs. eapply split_elem; [|exact Hm].
  by eapply list_elem_of_lookup_2.
Qed.

Lemma parseRelative_not_after_witness :
  (MINUS ∉ lit "about 3 mo ago")
  /\ parseRelativeLinkedInDate (lit "about 3 mo ago") (DateOfTime jan15)
     = Some (DateOfTime 1697328000000)
  /\ 1697328000000 <= jan15.
Proof.
  assert (MINUS ∉ lit "about 3 mo ago") as Hm.
  { vm_compute. intros H.
    by repeat (apply elem_of_cons in H as [?|H]; [done|]);
      apply elem_of_nil in H. }
  split; [exact Hm|]. split; [reflexivity|].
  apply (parseRelative_not_after (lit "about 3 mo ago") jan15
           (DateOfTime 1697328000000) 1697328000000 Hm); reflexivity.
Defined.

End NotAfterNow.

(* ===================================================================== *)
(** ** The filter stages *)
(* ===================================================================== *)

Section FilterStages.

Lemma List_filter_sublist {A} (f : A -> bool) l : sublist (List.filter f l) l.
Proof.
  induction l as [|x l IH]; simpl; [constructor|].
  destruct (f x); by constructor.
Qed.

Lemma List_filter_filter {A} (f g : A -> bool) l :
  List.filter f (List.filter g l) = List.filter (fun x => g x && f x) l.
Proof.
  induction l as [|x l IH]; simpl; [done|].
  destruct (g x); simpl; [destruct (f x)|]; by rewrite IH.
Qed.

Lemma List_filter_ext {A} (f g : A -> bool) l :
  (forall x, f x = g x) -> List.filter f l = List.filter g l.
Proof.
  intros E. induction l as [|x l IH]; simpl; [done|]. by rewrite E, IH.
Qed.

Lemma List_filter_true {A} (l : list A) : List.filter (fun _ => true) l = l.
Proof. induction l as [|x l IH]; simpl; [done|]. by rewrite IH. Qed.

(** A guarded stage is one filter, by a predicate that lets everything
    through when the guard is off. *)
Lemma stage_as_filter (c : bool) (f : Post -> bool) out :
  (if c then List.filter f out else out)
  = List.filter (fun r => negb c || f r) out.
Proof. destruct c; simpl; [done|]. by rewrite List_filter_true. Qed.

(** The four stages together are one filter of the rows. *)
Lemma filterStages_as_filter clock rows authors tags_ period search :
  filterStages clock rows authors tags_ period search
  = List.filter (keeps clock authors tags_ period search) rows.
Proof.
  unfold filterStages, searchStage, periodStage, tagStage, authorStage, keeps.
  rewrite !stage_as_filter, !List_filter_filter.
  apply List_filter_ext. intros r. by rewrite !andb_assoc.
Qed.

Lemma filterStages_sublist clock rows authors tags_ period search :
  sublist (filterStages clock rows authors tags_ period search) rows.
Proof. rewrite filterStages_as_filter. apply List_filter_sublist. Qed.

Lemma sortInsert_Permutation {A} (cmp : A -> A -> Num) x l :
  sortInsert cmp x l ≡ₚ x :: l.
Proof.
  induction l as [|y l IH]; simpl; [done|].
  destruct (precedes cmp x y); [done|]. rewrite IH. apply Permutation_swap.
Qed.

(** Sorting rearranges and neither adds nor drops. *)
Lemma sort_Permutation {A} (cmp : A -> A -> Num) l : sort cmp l ≡ₚ l.
Proof.
  induction l as [|x l IH]; simpl; [done|].
  rewrite sortInsert_Permutation. by rewrite IH.
Qed.

(** C7.  Whatever the controls are, every post of the output of the four
    stages, and of the sorted [filtered] list, is a post of the input,
    and the output is not longer than the input; with no author and no
    tag selected, the period at the sentinel -1 and a blank query, the
    stages return the input list itself. *)
Theorem filterStages_narrowing lc clock rows authors tags_ period search :
  (forall r, r ∈ filterStages clock rows authors tags_ period search ->
             r ∈ rows)
  /\ (forall r, r ∈ filtered lc clock rows authors tags_ period search ->
                r ∈ rows)
  /\ (length (filterStages clock rows authors tags_ period search)
      <= length rows)%nat
  /\ (authors = [] -> tags_ = [] -> period = -1 -> trim search = [] ->
      filterStages clock rows authors tags_ period search = rows).
Proof.
  pose proof (filterStages_sublist clock rows authors tags_ period search) as S.
  split; [|split; [|split]].
  - intros r Hr. by eapply sublist_subseteq.
  - intros r Hr. unfold filtered in Hr. rewrite sort_Permutation in Hr.
    by eapply sublist_subseteq.
  - by apply sublist_length.
  - intros -> -> -> E. unfold filterStages, searchStage. rewrite E. reflexivity.
Qed.

Lemma filterStages_narrowing_witness :
  trim (lit "   ") = []
  /\ filterStages jan15
       [samplePost None "B" "T2"; samplePost (Some (DateOfTime 0)) "A" "T1"]
       [] [] (-1) (lit "   ")
     = [samplePost None "B" "T2"; samplePost (Some (DateOfTime 0)) "A" "T1"].
Proof.
  split; [reflexivity|].
  apply (filterStages_narrowing codeUnitCompare jan15
           [samplePost None "B" "T2"; samplePost (Some (DateOfTime 0)) "A" "T1"]
           [] [] (-1) (lit "   ")); reflexivity.
Defined.

(** C10.  Before the sort, the output of the four stages is the input
    list filtered by one predicate, the conjunction of the active stages:
    the surviving posts stand in the order in which the input has them. *)
Theorem filterStages_order_preserving clock rows authors tags_ period search :
  filterStages clock rows authors tags_ period search
  = List.filter (keeps clock authors tags_ period search) rows
  /\ sublist (filterStages clock rows authors tags_ period search) rows.
Proof.
  split; [apply filterStages_as_filter|apply filterStages_sublist].
Qed.





End FilterStages.

(* ===================================================================== *)
(** ** Sorting, limiting and the wall clock *)
(* ===================================================================== *)

Section SortAndLimit.

(** The comparator on posts whose dates are valid or absent, in terms of
    the time key. *)
Lemma comparePosts_keys lc a b :
  wellDated a -> wellDated b ->
  comparePosts lc a b =
    if negb (timeKey b =? timeKey a) then Some (timeKey b - timeKey a)
    else if negb (lc (author a) (author b) =? 0)
         then Some (lc (author a) (author b))
         else Some (lc (title a) (title b)).
Proof.
  unfold wellDated, timeKey, comparePosts, InvalidDate. intros Ha Hb.
  destruct (dateObj a) as [[[ta|]]|]; [|done|];
    (destruct (dateObj b) as [[[tb|]]|]; [|done|]); reflexivity.
Qed.

(** C2, as the code has it.  For two posts whose dates are valid or
    absent and any collation [lc] of the host, the comparator puts [a]
    before [b] exactly when [a] has the greater time key, or the keys are
    equal and [a] comes first by author and then by title under [lc]; and
    after [b] in the mirrored case.  The time key of a post without a date
    is 0, the epoch: such a post goes after every post dated later than
    the epoch and before every post dated earlier. *)
Theorem comparePosts_order lc a b :
  wellDated a -> wellDated b ->
  (sortsBefore lc a b <->
     timeKey b < timeKey a \/ (timeKey a = timeKey b /\ nameBefore lc a b))
  /\ (sortsAfter lc a b <->
     timeKey a < timeKey b \/ (timeKey a = timeKey b /\ nameAfter lc a b))
  /\ (dateObj a = None -> timeKey a = 0).
Proof.
  intros Ha Hb. unfold sortsBefore, sortsAfter, nameBefore, nameAfter.
  rewrite (comparePosts_keys lc a b Ha Hb).
  split; [|split; [|by unfold timeKey; intros ->]];
  (destruct (Z.eqb_spec (timeKey b) (timeKey a)) as [Et|Et];
    [destruct (Z.eqb_spec (lc (author a) (author b)) 0) as [Ea|Ea]|];
    cbn [negb];
    (split; [intros (v & E & Hv); simplify_eq; lia
            | intros H; eexists; split; [reflexivity|lia]])).
Qed.

Lemma comparePosts_order_witness :
  wellDated (samplePost None "A" "T1")
  /\ wellDated (samplePost (Some (DateOfTime jan15)) "B" "T2")
  /\ sortsAfter codeUnitCompare (samplePost None "A" "T1")
       (samplePost (Some (DateOfTime jan15)) "B" "T2").
Proof.
  split; [discriminate|]. split; [discriminate|].
  apply (comparePosts_order codeUnitCompare (samplePost None "A" "T1")
           (samplePost (Some (DateOfTime jan15)) "B" "T2"));
    [discriminate|discriminate|].
  left. vm_compute. reflexivity.
Defined.

(** A post without a date goes before a post dated 31 December 1969. *)
Lemma dateless_sorts_before_older_post :
  dateObj (samplePost None "A" "T") = None
  /\ dateObj (samplePost (Some (DateOfTime (- oneDay))) "A" "T")
     = Some (DateOfTime (- oneDay))
  /\ sortsBefore codeUnitCompare (samplePost None "A" "T")
       (samplePost (Some (DateOfTime (- oneDay))) "A" "T")
  /\ ~ sortsAfter codeUnitCompare (samplePost None "A" "T")
       (samplePost (Some (DateOfTime (- oneDay))) "A" "T")
  /\ sort (comparePosts codeUnitCompare)
       [samplePost (Some (DateOfTime (- oneDay))) "A" "T";
        samplePost None "A" "T"]
     = [samplePost None "A" "T";
        samplePost (Some (DateOfTime (- oneDay))) "A" "T"].
Proof.
  split; [reflexivity|]. split; [reflexivity|]. split; [|split].
  - eexists. split; [reflexivity|]. vm_compute. reflexivity.
  - intros (v & E & Hv). vm_compute in E. simplify_eq. lia.
  - reflexivity.
Qed.

(** C3, as the code has it.  A maximum of -1 or of 0 leaves the list
    whole; a positive maximum keeps the first [m] posts, all of them when
    the list is shorter; a maximum below -1 drops the last [-m] posts. *)
Theorem limited_spec (l : list Post) (m : Z) :
  (m = -1 \/ m = 0 -> limited l m = l)
  /\ (0 < m -> limited l m = take (Z.to_nat m) l)
  /\ (m < -1 -> limited l m = take (length l - Z.to_nat (- m)) l).
Proof.
  unfold limited, slice0. split; [|split].
  - intros [-> | ->]; reflexivity.
  - intros H. replace ((m =? 0) || (m =? -1)) with false by lia.
    replace (m <? 0) with false by lia.
    destruct (Z.le_ge_cases m (Z.of_nat (length l))).
    + by rewrite Z.min_l.
    + rewrite Z.min_r by lia. rewrite Nat2Z.id.
      rewrite !take_ge; [done|lia|lia].
  - intros H. replace ((m =? 0) || (m =? -1)) with false by lia.
    replace (m <? 0) with true by lia. f_equal. lia.
Qed.

Lemma limited_spec_witness :
  0 < 2
  /\ limited [samplePost None "A" "T1"; samplePost None "B" "T2";
              samplePost None "C" "T3"] 2
     = take (Z.to_nat 2) [samplePost None "A" "T1"; samplePost None "B" "T2";
                          samplePost None "C" "T3"].
Proof.
  split; [lia|].
  apply (limited_spec [samplePost None "A" "T1"; samplePost None "B" "T2";
                       samplePost None "C" "T3"] 2). lia.
Defined.

(** A maximum of 0, and one of -2 on three posts, do not give the empty
    list. *)
Lemma limited_nonpositive_not_empty :
  limited [samplePost None "A" "T1"] 0 <> []
  /\ limited [samplePost None "A" "T1"; samplePost None "B" "T2";
              samplePost None "C" "T3"] (-2) <> [].
Proof. split; vm_compute; discriminate. Qed.

(** C9, as the code has it.  [filtered] reads the wall clock for its
    cutoff, so its output is a function of its arguments and of the
    instant of the call; with a period of 0 or less the clock is not
    consulted and two calls with the same arguments agree at any two
    instants. *)
Theorem filtered_clock_free lc rows authors tags_ period search :
  period <= 0 ->
  forall clock1 clock2,
    filtered lc clock1 rows authors tags_ period search
    = filtered lc clock2 rows authors tags_ period search.
Proof.
  intros H c1 c2. unfold filtered, filterStages, periodStage.
  by replace (0 <? period) with false by lia.
Qed.

Lemma filtered_clock_free_witness :
  -1 <= 0
  /\ filtered codeUnitCompare jan15
       [samplePost (Some (DateOfTime (jan15 - 5 * oneDay))) "A" "T1"]
       [] [] (-1) []
     = filtered codeUnitCompare (jan15 + 30 * oneDay)
       [samplePost (Some (DateOfTime (jan15 - 5 * oneDay))) "A" "T1"]
       [] [] (-1) [].
Proof.
  split; [lia|].
  apply (filtered_clock_free codeUnitCompare
           [samplePost (Some (DateOfTime (jan15 - 5 * oneDay))) "A" "T1"]
           [] [] (-1) []). lia.
Defined.

(** The same rows and controls, a period of 7 days, two instants of the
    call: the post of 10 January is kept on 15 January and dropped on 14
    February. *)
Lemma filtered_depends_on_clock :
  filtered codeUnitCompare jan15
    [samplePost (Some (DateOfTime (jan15 - 5 * oneDay))) "A" "T1"] [] [] 7 []
  <> filtered codeUnitCompare (jan15 + 30 * oneDay)
    [samplePost (Some (DateOfTime (jan15 - 5 * oneDay))) "A" "T1"] [] [] 7 [].
Proof. vm_compute. discriminate. Qed.

End SortAndLimit.

(* ===================================================================== *)
(** ** Lists without duplicates and the order of the sort *)
(* ===================================================================== *)

Section SortedLists.

Lemma str_eqb_true a b : str_eqb a b = true <-> a = b.
Proof. unfold str_eqb. apply bool_decide_eq_true. Qed.

Lemma str_eqb_false a b : str_eqb a b = false <-> a <> b.
Proof. unfold str_eqb. apply bool_decide_eq_false. Qed.

Lemma includes_elem arr x : includes arr x = true <-> x ∈ arr.
Proof.
  unfold includes. rewrite existsb_exists. split.
  - intros (y & Hy & E). apply str_eqb_true in E as ->. by apply list_elem_of_In.
  - intros H. exists x. split; [by apply list_elem_of_In|by apply str_eqb_true].
Qed.

Lemma List_filter_elem {A} (f : A -> bool) l x :
  x ∈ List.filter f l <-> x ∈ l /\ f x = true.
Proof. rewrite !list_elem_of_In. apply filter_In. Qed.

Lemma List_filter_NoDup {A} (f : A -> bool) l : NoDup l -> NoDup (List.filter f l).
Proof.
  induction 1 as [|x l Hx Hl IH]; simpl; [constructor|].
  destruct (f x); [|done]. constructor; [|done].
  rewrite List_filter_elem. tauto.
Qed.

(** [Array.from(new Set(arr))] has the elements of [arr], each once. *)
Lemma arrayFromSet_elem arr x : x ∈ arrayFromSet arr <-> x ∈ arr.
Proof.
  induction arr as [|y arr IH]; simpl; [done|].
  rewrite !elem_of_cons, List_filter_elem, IH, negb_true_iff, str_eqb_false.
  destruct (decide (x = y)) as [->|]; [tauto|intuition congruence].
Qed.

Lemma arrayFromSet_NoDup arr : NoDup (arrayFromSet arr).
Proof.
  induction arr as [|y arr IH]; simpl; [constructor|].
  constructor; [|by apply List_filter_NoDup].
  rewrite List_filter_elem, negb_true_iff, str_eqb_false. tauto.
Qed.

Lemma sortInsert_HdRel {A} (cmp : A -> A -> Num) a x l :
  precedes cmp a x = true ->
  HdRel (fun a b => precedes cmp a b = true) a l ->
  HdRel (fun a b => precedes cmp a b = true) a (sortInsert cmp x l).
Proof.
  intros Hax Hl. destruct l as [|y l]; simpl; [by constructor|].
  destruct (precedes cmp x y); constructor; [done|]. by inversion Hl.
Qed.

Lemma sortInsert_Sorted {A} (cmp : A -> A -> Num) x l :
  (forall a b, precedes cmp a b = false -> precedes cmp b a = true) ->
  Sorted (fun a b => precedes cmp a b = true) l ->
  Sorted (fun a b => precedes cmp a b = true) (sortInsert cmp x l).
Proof.
  intros Hanti. induction 1 as [|y l Hl IH Hy]; simpl.
  - repeat constructor.
  - destruct (precedes cmp x y) eqn:E.
    + constructor; [by constructor|by constructor].
    + constructor; [done|]. apply sortInsert_HdRel; [by apply Hanti|done].
Qed.

(** With a comparator that never puts each of two elements after the other,
    neighbours of the sorted array are in order. *)
Lemma sort_Sorted {A} (cmp : A -> A -> Num) l :
  (forall a b, precedes cmp a b = false -> precedes cmp b a = true) ->
  Sorted (fun a b => precedes cmp a b = true) (sort cmp l).
Proof.
  intros Hanti. induction l as [|x l IH]; simpl; [constructor|].
  by apply sortInsert_Sorted.
Qed.


Lemma byLocale_antisym lc :
  signAntisymmetric lc ->
  forall a b, precedes (byLocale lc) a b = false -> precedes (byLocale lc) b a = true.
Proof.
  intros H a b. unfold precedes, byLocale. specialize (H a b).
  intros ?%Z.leb_gt. apply Z.leb_le. lia.
Qed.

(** The comparator of the posts never puts each of two posts after the
    other, Invalid Dates included (it returns NaN on them). *)
Lemma comparePosts_antisym lc :
  signAntisymmetric lc ->
  forall a b, precedes (comparePosts lc) a b = false ->
              precedes (comparePosts lc) b a = true.
Proof.
  intros H a b. unfold precedes, comparePosts.
  pose proof (H (author a) (author b)) as Ha.
  pose proof (H (title a) (title b)) as Ht.
  destruct (match dateObj a with Some d => getTime d | None => Some 0 end) as [ta|];
  destruct (match dateObj b with Some d => getTime d | None => Some 0 end) as [tb|];
    simpl; try done.
  destruct (Z.eqb_spec tb ta) as [->|Hne]; simpl.
  - rewrite Z.eqb_refl. simpl.
    destruct (Z.eqb_spec (lc (author a) (author b)) 0) as [E|E];
    destruct (Z.eqb_spec (lc (author b) (author a)) 0) as [E'|E']; simpl;
      intros ?%Z.leb_gt; apply Z.leb_le; lia.
  - destruct (Z.eqb_spec ta tb) as [->|Hne']; [done|]. simpl.
    intros ?%Z.leb_gt; apply Z.leb_le; lia.
Qed.

Lemma Sorted_weaken {A} (R R' : relation A) l :
  (forall a b, R a b -> R' a b) -> Sorted R l -> Sorted R' l.
Proof.
  intros HR. induction 1 as [|x l Hl IH Hx]; constructor; [done|].
  destruct Hx; constructor. by apply HR.
Qed.

(** Comparison by code units is a collation of the kind assumed below. *)
Lemma codeUnitCompare_antisym : signAntisymmetric codeUnitCompare.
Proof.
  intros a. induction a as [|x a IH]; intros [|y b]; simpl; try done.
  destruct (N.ltb_spec x y), (N.ltb_spec y x); first [lia | done | apply IH].
Qed.

Lemma codeUnitCompare_trans : collationTransitive codeUnitCompare.
Proof.
  intros a. induction a as [|x a IH]; intros [|y b] [|z c]; simpl; try lia.
  destruct (N.ltb_spec x y), (N.ltb_spec y x), (N.ltb_spec y z), (N.ltb_spec z y),
    (N.ltb_spec x z), (N.ltb_spec z x); try lia.
  apply IH.
Qed.

(** X3.  [uniqueSorted arr] has no duplicates; its elements are exactly the
    non-empty strings of [arr]; and when the collation of the host changes
    sign with the order of its arguments, each element is at or before its
    successor in that collation. *)
Theorem uniqueSorted_spec lc arr :
  NoDup (uniqueSorted lc arr)
  /\ (forall x, x ∈ uniqueSorted lc arr <-> x ∈ arr /\ x <> [])
  /\ (signAntisymmetric lc ->
      Sorted (fun a b => lc a b <= 0) (uniqueSorted lc arr)).
Proof.
  unfold uniqueSorted. split; [|split].
  - rewrite sort_Permutation. apply arrayFromSet_NoDup.
  - intros x. rewrite sort_Permutation, arrayFromSet_elem, List_filter_elem.
    destruct x; simpl; intuition congruence.
  - intros H. eapply Sorted_weaken; [|apply sort_Sorted, byLocale_antisym, H].
    intros a b. unfold precedes, byLocale. by intros ?%Z.leb_le.
Qed.

Lemma uniqueSorted_spec_witness :
  signAntisymmetric codeUnitCompare
  /\ Sorted (fun a b => codeUnitCompare a b <= 0)
       (uniqueSorted codeUnitCompare [lit "Bo"; lit "Al"; []; lit "Bo"]).
Proof.
  split; [exact codeUnitCompare_antisym|].
  apply (uniqueSorted_spec codeUnitCompare [lit "Bo"; lit "Al"; []; lit "Bo"]).
  exact codeUnitCompare_antisym.
Defined.

Lemma not_positive_result (x : Z) :
  ~ (exists v, Some x = Some v /\ 0 < v) <-> x <= 0.
Proof.
  split.
  - intros H. destruct (Z.le_gt_cases x 0); [done|].
    exfalso. apply H. exists x. split; [done|lia].
  - intros H (v & [= <-] & Hv). lia.
Qed.

(** Not sorting after, on the keys of two posts. *)
Lemma not_sortsAfter_keys lc a b :
  wellDated a -> wellDated b ->
  (~ sortsAfter lc a b <->
   timeKey b <= timeKey a
   /\ (timeKey a = timeKey b ->
       lc (author a) (author b) <= 0
       /\ (lc (author a) (author b) = 0 -> lc (title a) (title b) <= 0))).
Proof.
  intros Ha Hb. unfold sortsAfter. rewrite (comparePosts_keys lc a b Ha Hb).
  destruct (Z.eqb_spec (timeKey b) (timeKey a)) as [Et|Et];
    [destruct (Z.eqb_spec (lc (author a) (author b)) 0) as [Ea|Ea]|];
    cbn [negb]; rewrite not_positive_result; lia.
Qed.

Lemma ordered_trans lc a b c :
  signAntisymmetric lc -> collationTransitive lc ->
  wellDated a -> wellDated b -> wellDated c ->
  ~ sortsAfter lc a b -> ~ sortsAfter lc b c -> ~ sortsAfter lc a c.
Proof.
  intros HA HT Ha Hb Hc.
  rewrite !not_sortsAfter_keys by done.
  intros [K1 N1] [K2 N2]. split; [lia|]. intros E.
  destruct (N1 ltac:(lia)) as [A1 T1]. destruct (N2 ltac:(lia)) as [A2 T2].
  split; [by eapply HT|]. intros E0.
  assert (lc (author a) (author b) = 0) as Eab.
  { pose proof (HA (author a) (author b)). pose proof (HA (author a) (author c)).
    pose proof (HT (author b) (author c) (author a) A2 ltac:(lia)). lia. }
  assert (lc (author b) (author c) = 0) as Ebc.
  { pose proof (HA (author b) (author c)). pose proof (HA (author a) (author c)).
    pose proof (HT (author c) (author a) (author b) ltac:(lia) A1). lia. }
  eapply HT; eauto.
Qed.

Lemma Sorted_StronglySorted_on {A} (P : A -> Prop) (R : relation A) l :
  (forall a b c, P a -> P b -> P c -> R a b -> R b c -> R a c) ->
  Forall P l -> Sorted R l -> StronglySorted R l.
Proof.
  intros HT HP HS. induction HS as [|x l Hl IH Hx]; [constructor|].
  apply Forall_cons in HP as [Px Pl]. constructor; [by apply IH|].
  specialize (IH Pl). clear Hl.
  induction IH as [|y l Hl' IH' Hy]; [constructor|].
  apply Forall_cons in Pl as [Py Pl]. inversion Hx as [|? ? Rxy]; subst.
  constructor; [done|].
  apply IH'; [done|]. destruct l as [|z l]; constructor.
  apply Forall_cons in Hy as [Ryz _]. apply Forall_cons in Pl as [Pz _].
  by eapply (HT x y z).
Qed.

(** Neighbours of the sorted output are in the order of the comparator. *)
Lemma filtered_in_order lc clock rows authors tags_ period search :
  signAntisymmetric lc ->
  Sorted (fun a b => ~ sortsAfter lc a b)
    (filtered lc clock rows authors tags_ period search).
Proof.
  intros H. unfold filtered.
  eapply Sorted_weaken; [|apply sort_Sorted, comparePosts_antisym, H].
  intros a b. unfold precedes, sortsAfter.
  destruct (comparePosts lc a b) as [v|]; [|by intros _ (? & ? & _)].
  intros ?%Z.leb_le (v' & [= <-] & ?). lia.
Qed.

(** X4.  When the collation of the host changes sign with the order of its
    arguments and is transitive, and every row has a valid date or none,
    the output of [filtered] is ordered throughout: no post of it sorts
    after a post that comes later in it, however far apart the two are. *)
Theorem filtered_globally_ordered lc clock rows authors tags_ period search :
  signAntisymmetric lc -> collationTransitive lc ->
  Forall wellDated rows ->
  StronglySorted (fun a b => ~ sortsAfter lc a b)
    (filtered lc clock rows authors tags_ period search).
Proof.
  intros HA HT HW.
  apply (Sorted_StronglySorted_on wellDated).
  - intros a b c; by apply ordered_trans.
  - apply Forall_forall. intros r Hr. rewrite Forall_forall in HW. apply HW.
    unfold filtered in Hr. rewrite sort_Permutation in Hr.
    by eapply sublist_subseteq; [apply filterStages_sublist|].
  - by apply filtered_in_order.
Qed.

Lemma filtered_globally_ordered_witness :
  StronglySorted (fun a b => ~ sortsAfter codeUnitCompare a b)
    (filtered codeUnitCompare jan15
       [samplePost None "Bo" "t"; samplePost (Some (DateOfTime jan15)) "Al" "u";
        samplePost (Some (DateOfTime jan15)) "Al" "t"]
       [] [] (-1) []).
Proof.
  apply filtered_globally_ordered;
    [exact codeUnitCompare_antisym|exact codeUnitCompare_trans|].
  repeat constructor; vm_compute; discriminate.
Defined.



End SortedLists.

(* ===================================================================== *)
(** ** White space, the include flag and the tags of a row *)
(* ===================================================================== *)

Section WhiteSpace.



Lemma trimStart_blank_app w s : blank w -> trimStart (w ++ s) = trimStart s.
Proof. induction 1 as [|c w Hc Hw IH]; simpl; [done|]. by rewrite Hc. Qed.

Lemma trimStart_blank w : blank w -> trimStart w = [].
Proof. intros H. rewrite <- (app_nil_r w). by rewrite trimStart_blank_app. Qed.

Lemma trimStart_head s c r : trimStart s = c :: r -> isWhiteSpace c = false.
Proof.
  induction s as [|x s IH]; simpl; [done|].
  destruct (isWhiteSpace x) eqn:E; [done|]. by intros [= <- <-].
Qed.

Lemma trimStart_fixed c r : isWhiteSpace c = false -> trimStart (c :: r) = c :: r.
Proof. intros H. simpl. by rewrite H. Qed.

Lemma trimStart_idem s : trimStart (trimStart s) = trimStart s.
Proof.
  destruct (trimStart s) as [|c r] eqn:E; [done|].
  apply trimStart_fixed. by eapply trimStart_head.
Qed.

Lemma trimStart_app_nonblank s w :
  trimStart s <> [] -> trimStart (s ++ w) = trimStart s ++ w.
Proof.
  induction s as [|c s IH]; simpl; [done|].
  destruct (isWhiteSpace c); [done|]. done.
Qed.

Lemma blank_rev w : blank w -> blank (rev w).
Proof.
  unfold blank. rewrite !Forall_forall. intros H c Hc. apply H.
  apply list_elem_of_In. apply in_rev. by apply list_elem_of_In.
Qed.

Lemma trimEnd_blank_app s w : blank w -> trimEnd (s ++ w) = trimEnd s.
Proof.
  intros H. unfold trimEnd. rewrite rev_app_distr.
  by rewrite trimStart_blank_app by by apply blank_rev.
Qed.

Lemma trimEnd_nil : trimEnd [] = [].
Proof. reflexivity. Qed.

Lemma trim_padding w1 w2 v : blank w1 -> blank w2 -> trim (w1 ++ v ++ w2) = trim v.
Proof.
  intros H1 H2. unfold trim. rewrite trimStart_blank_app by done.
  destruct (trimStart v) as [|c r] eqn:E.
  - assert (trimStart (v ++ w2) = []) as ->; [|done].
    clear H1. induction v as [|x v IH]; simpl in *; [by apply trimStart_blank|].
    destruct (isWhiteSpace x); [by apply IH|done].
  - rewrite trimStart_app_nonblank by by rewrite E.
    rewrite E. by apply trimEnd_blank_app.
Qed.

Lemma trim_blank w : blank w -> trim w = [].
Proof. intros H. unfold trim. by rewrite trimStart_blank. Qed.

(** [trimEnd] keeps a head that is not white space. *)
Lemma trimEnd_cons c r : isWhiteSpace c = false -> exists r', trimEnd (c :: r) = c :: r'.
Proof.
  intros Hc. unfold trimEnd. simpl.
  destruct (trimStart_suffix (rev r ++ [c])) as [p E].
  assert (exists q, trimStart (rev r ++ [c]) = q ++ [c]) as [q Eq].
  { clear E p. induction (rev r) as [|x l IH]; simpl.
    - rewrite Hc. by exists [].
    - destruct (isWhiteSpace x); [exact IH|]. by exists (x :: l). }
  rewrite Eq, rev_app_distr. simpl. eauto.
Qed.

Lemma trimEnd_idem s : trimEnd (trimEnd s) = trimEnd s.
Proof. unfold trimEnd. by rewrite rev_involutive, trimStart_idem. Qed.

Lemma trim_idem s : trim (trim s) = trim s.
Proof.
  unfold trim. destruct (trimStart s) as [|c r] eqn:E; [reflexivity|].
  pose proof (trimStart_head _ _ _ E) as Hc.
  destruct (trimEnd_cons c r Hc) as [r' Er].
  rewrite Er, trimStart_fixed by done. rewrite <- Er. apply trimEnd_idem.
Qed.

Lemma isWhiteSpace_not_letter c :
  isWhiteSpace c = true -> (c < 48 \/ 122 < c)%N.
Proof.
  unfold isWhiteSpace.
  rewrite !orb_true_iff, !andb_true_iff, !N.leb_le, !N.eqb_eq. lia.
Qed.

Lemma isWhiteSpace_lower c : isWhiteSpace (lowerUnit c) = isWhiteSpace c.
Proof.
  unfold lowerUnit. destruct ((65 <=? c)%N && (c <=? 90)%N) eqn:E; [|done].
  apply andb_prop in E as [?%N.leb_le ?%N.leb_le].
  destruct (isWhiteSpace (c + 32)) eqn:E1; [apply isWhiteSpace_not_letter in E1; lia|].
  destruct (isWhiteSpace c) eqn:E2; [apply isWhiteSpace_not_letter in E2; lia|done].
Qed.

Lemma trimStart_lower s : trimStart (toLowerCase s) = toLowerCase (trimStart s).
Proof.
  unfold toLowerCase. induction s as [|c s IH]; simpl; [done|].
  rewrite isWhiteSpace_lower. by destruct (isWhiteSpace c).
Qed.

Lemma trim_lower s : trim (toLowerCase s) = toLowerCase (trim s).
Proof.
  unfold trim, trimEnd. rewrite trimStart_lower.
  unfold toLowerCase at 1. rewrite <- map_rev.
  change (map lowerUnit ?l) with (toLowerCase l).
  rewrite trimStart_lower. unfold toLowerCase. by rewrite map_rev.
Qed.

(** X6.  [truthyInclude] is true on every value of white space only (the
    empty string among them); white space before and after the value does
    not change its result; and two values that differ only in the case of
    their letters have the same result. *)
Theorem truthyInclude_insensitive :
  (forall v, blank v -> truthyInclude v = true)
  /\ (forall w1 w2 v, blank w1 -> blank w2 ->
        truthyInclude (w1 ++ v ++ w2) = truthyInclude v)
  /\ (forall v1 v2, toLowerCase v1 = toLowerCase v2 ->
        truthyInclude v1 = truthyInclude v2).
Proof.
  split; [|split].
  - intros v Hv. unfold truthyInclude. by rewrite trim_blank.
  - intros w1 w2 v H1 H2. unfold truthyInclude. by rewrite trim_padding.
  - intros v1 v2 E. unfold truthyInclude. by rewrite <- !trim_lower, E.
Qed.

Lemma truthyInclude_insensitive_witness :
  truthyInclude (lit "  ") = true
  /\ truthyInclude (lit " no" ++ lit "  ") = truthyInclude (lit "no")
  /\ truthyInclude (lit "YES") = truthyInclude (lit "yes").
Proof.
  destruct truthyInclude_insensitive as (H1 & H2 & H3).
  split; [|split].
  - apply H1. repeat constructor.
  - apply (H2 [SPACE] (lit "  ") (lit "no")); repeat constructor.
  - apply H3. reflexivity.
Defined.

End WhiteSpace.

Section RowFields.

Lemma nonEmpty_true {A} (l : list A) : nonEmpty l = true <-> l <> [].
Proof. by destruct l. Qed.

Lemma splitOnRuns_pieces isSep b s w c :
  w ∈ splitOnRuns isSep b s -> c ∈ w -> isSep c = false.
Proof.
  revert b w. induction s as [|x s IH]; simpl; intros b w Hw Hc.
  - apply list_elem_of_singleton in Hw as ->. by apply elem_of_nil in Hc.
  - destruct (isSep x) eqn:Ex.
    + destruct b; [by eapply IH|].
      apply elem_of_cons in Hw as [->|Hw]; [by apply elem_of_nil in Hc|by eapply IH].
    + destruct (splitOnRuns isSep false s) as [|w0 ws] eqn:E.
      * apply list_elem_of_singleton in Hw as ->.
        by apply list_elem_of_singleton in Hc as ->.
      * apply elem_of_cons in Hw as [->|Hw].
        -- apply elem_of_cons in Hc as [->|Hc]; [done|].
           apply (IH false w0); [rewrite E; left|done].
        -- apply (IH false w); [rewrite E; by right|done].
Qed.

(** The tags read from a cell are clean. *)
Lemma tagsOfCell_clean tagsStr t :
  t ∈ tagsOfCell tagsStr -> cleanTag t.
Proof.
  unfold tagsOfCell. rewrite List_filter_elem, nonEmpty_true.
  intros [Ht Hne]. apply list_elem_of_fmap in Ht as (w & -> & Hw).
  split; [done|]. split; [apply trim_idem|].
  apply Forall_forall. intros c Hc. apply trim_elem in Hc.
  by eapply splitOnRuns_pieces.
Qed.

Lemma splitOnRuns_cons isSep b s : splitOnRuns isSep b s <> [].
Proof.
  revert b. induction s as [|x s IH]; intros b; simpl; [done|].
  destruct (isSep x); [destruct b; [apply IH|done]|].
  by destruct (splitOnRuns isSep false s).
Qed.

Lemma splitOnRuns_app isSep b t s :
  Forall (fun c => isSep c = false) t -> t <> [] ->
  splitOnRuns isSep b (t ++ s)
  = match splitOnRuns isSep false s with
    | w :: ws => (t ++ w) :: ws
    | [] => [t]
    end.
Proof.
  intros Ht. revert b. induction Ht as [|c t Hc Ht IH]; intros b Hne; [done|].
  simpl. rewrite Hc. destruct t as [|c' t'].
  - simpl. by destruct (splitOnRuns isSep false s).
  - rewrite IH by done. by destruct (splitOnRuns isSep false s).
Qed.

Lemma splitOnRuns_start isSep b c s :
  isSep c = false -> splitOnRuns isSep b (c :: s) = splitOnRuns isSep false (c :: s).
Proof. intros H. simpl. by rewrite H. Qed.

Lemma blank_not_separator w : blank w -> Forall (fun c => isTagSeparator c = false) w.
Proof.
  intros H. eapply Forall_impl; [exact H|]. clear H.
  intros c Hc. apply isWhiteSpace_not_letter in Hc as Hr.
  unfold isTagSeparator. destruct (N.eqb_spec c 44), (N.eqb_spec c 59); try done;
    subst; vm_compute in Hc; done.
Qed.

Lemma tags_after_gap w J :
  blank w -> (exists c J', J = c :: J' /\ isTagSeparator c = false) ->
  List.filter nonEmpty (map trim (splitOnRuns isTagSeparator true (w ++ J)))
  = tagsOfCell J.
Proof.
  intros Hw (c & J' & -> & Hc). unfold tagsOfCell.
  destruct w as [|x w'].
  - simpl app. by rewrite splitOnRuns_start.
  - rewrite splitOnRuns_app by (by apply blank_not_separator || done).
    destruct (splitOnRuns isTagSeparator false (c :: J')) as [|w1 ws] eqn:E;
      [by apply splitOnRuns_cons in E|].
    assert (trim ((x :: w') ++ w1) = trim w1) as Et.
    { pose proof (trim_padding (x :: w') [] w1 Hw ltac:(constructor)) as P.
      by rewrite app_nil_r in P. }
    cbn [map]. by rewrite Et.
Qed.

(** A cell written with one gap between clean tags gives the tags back. *)
Lemma tagsOfCell_join sep ts :
  tagGap sep -> Forall cleanTag ts -> tagsOfCell (join sep ts) = ts.
Proof.
  intros (c & w & -> & Hc & Hw). induction 1 as [|t ts Ht Hts IH]; [reflexivity|].
  destruct Ht as (Hne & Htrim & Hsep).
  assert (List.filter nonEmpty [trim t] = [t]) as Ht1.
  { rewrite Htrim. simpl. by destruct t. }
  destruct ts as [|t2 ts'].
  - simpl join. unfold tagsOfCell. rewrite <- (app_nil_r t).
    rewrite splitOnRuns_app by done. simpl. rewrite app_nil_r, Htrim. by destruct t.
  - change (join (c :: w) (t :: t2 :: ts'))
      with (t ++ (c :: w) ++ join (c :: w) (t2 :: ts')).
    unfold tagsOfCell. rewrite splitOnRuns_app by done.
    change ((c :: w) ++ ?J) with (c :: (w ++ J)).
    cbn [splitOnRuns]. rewrite Hc. rewrite app_nil_r.
    cbn [map List.filter]. rewrite Htrim.
    replace (nonEmpty t) with true by by destruct t.
    f_equal. rewrite tags_after_gap; [exact IH|done|].
    apply Forall_cons in Hts as [(Hne2 & _ & Hsep2) _].
    destruct t2 as [|c2 t2']; [done|]. apply Forall_cons in Hsep2 as [Hc2 _].
    destruct ts'; simpl; eauto.
Qed.

Lemma firstTruthy_head c s rest : firstTruthy (Some (c :: s) :: rest) = c :: s.
Proof. reflexivity. Qed.

(** X7.  In the post that [normalizeRow] makes of any row, the raw date,
    the author, the title, the summary and the url have no white space
    around them, and every tag is clean: not empty, without white space
    around it, without a comma or a semicolon. *)
Theorem normalizeRow_fields_clean host clock r :
  let p := normalizeRow host clock r in
  trim (dateRaw p) = dateRaw p /\ trim (author p) = author p
  /\ trim (title p) = title p /\ trim (summary p) = summary p
  /\ trim (url p) = url p /\ Forall cleanTag (tags p).
Proof.
  cbv zeta. unfold normalizeRow. cbn [dateRaw author title summary url tags].
  rewrite !trim_idem. repeat split.
  apply Forall_forall. intros t. apply tagsOfCell_clean.
Qed.

(** X8.  When the [tags] cell of a row is a non-empty list of clean tags
    written with one and the same gap between them (a comma or a
    semicolon, then white space if any), the tags of the post are that
    list, in its order. *)
Theorem normalizeRow_tags_round_trip host clock r sep ts :
  tagGap sep -> Forall cleanTag ts -> ts <> [] ->
  getProp r (lit "tags") = Some (join sep ts) ->
  tags (normalizeRow host clock r) = ts.
Proof.
  intros Hsep Hts Hne Hcell. unfold normalizeRow. cbn [tags].
  rewrite Hcell.
  assert (exists c s, join sep ts = c :: s) as (c & s & E).
  { destruct ts as [|t ts']; [done|]. apply Forall_cons in Hts as [(Ht & _) _].
    destruct t as [|c t']; [done|]. destruct ts'; simpl; eauto. }
  rewrite E, firstTruthy_head, <- E. by apply tagsOfCell_join.
Qed.

Lemma normalizeRow_tags_round_trip_witness :
  tags (normalizeRow noHostParse jan15 [(lit "tags", lit "ai; ml ops")])
  = [lit "ai"; lit "ml ops"].
Proof.
  apply (normalizeRow_tags_round_trip noHostParse jan15 _ (lit "; ")).
  - exists 59%N, [SPACE]. repeat split. repeat constructor.
  - repeat constructor; discriminate.
  - discriminate.
  - reflexivity.
Defined.

End RowFields.

(* ===================================================================== *)
(** ** The date shown on a card *)
(* ===================================================================== *)

Section Formatting.


Lemma bounded_check (f : Z -> bool) (lo n : Z) :
  forallb f (map (fun i => lo + Z.of_nat i) (seq 0 (Z.to_nat n))) = true ->
  forall y, lo <= y < lo + n -> f y = true.
Proof.
  intros H y Hy. rewrite forallb_forall in H. apply H.
  apply in_map_iff. exists (Z.to_nat (y - lo)). split; [lia|].
  apply in_seq. lia.
Qed.

Lemma year_digits y :
  1000 <= y <= 9999 ->
  exists a b c d,
    numberToString (Some y) = [a; b; c; d]
    /\ Forall (fun c => isDigit c = true) [a; b; c; d]
    /\ digitsValue [a; b; c; d] = y.
Proof.
  intros Hy.
  pose (f := fun y => match numberToString (Some y) with
                      | [a; b; c; d] =>
                          forallb isDigit [a; b; c; d]
                          && (digitsValue [a; b; c; d] =? y)
                      | _ => false
                      end).
  assert (f y = true) as Hf.
  { apply (bounded_check f 1000 9000); [vm_compute; reflexivity|lia]. }
  unfold f in Hf.
  destruct (numberToString (Some y)) as [|a [|b [|c [|d [|? ?]]]]]; try done.
  apply andb_prop in Hf as [Hd Hv%Z.eqb_eq].
  exists a, b, c, d. split; [done|]. split; [|done].
  apply Forall_forall. intros x Hx. rewrite forallb_forall in Hd.
  apply Hd. by apply list_elem_of_In.
Qed.

Lemma two_digits n :
  1 <= n <= 31 ->
  exists a b,
    padStart 2 48 (numberToString (Some n)) = [a; b]
    /\ Forall (fun c => isDigit c = true) [a; b]
    /\ digitsValue [a; b] = n.
Proof.
  intros Hn.
  pose (f := fun n => match padStart 2 48 (numberToString (Some n)) with
                      | [a; b] =>
                          forallb isDigit [a; b] && (digitsValue [a; b] =? n)
                      | _ => false
                      end).
  assert (f n = true) as Hf.
  { apply (bounded_check f 1 31); [vm_compute; reflexivity|lia]. }
  unfold f in Hf.
  destruct (padStart 2 48 (numberToString (Some n))) as [|a [|b [|? ?]]]; try done.
  apply andb_prop in Hf as [Hd Hv%Z.eqb_eq].
  exists a, b. split; [done|]. split; [|done].
  apply Forall_forall. intros x Hx. rewrite forallb_forall in Hd.
  apply Hd. by apply list_elem_of_In.
Qed.

Lemma InLeapYear_days t : DaysInYear (YearFromTime t) = 365 + InLeapYear t.
Proof.
  unfold InLeapYear. pose proof (DaysInYear_range (YearFromTime t)).
  case_match; lia.
Qed.

Lemma DayWithinYear_range t :
  0 <= DayWithinYear t < DaysInYear (YearFromTime t).
Proof.
  unfold DayWithinYear, YearFromTime.
  pose proof (YearFromDay_bounds (Day t)) as B.
  rewrite DayFromYear_step in B. lia.
Qed.

Lemma DateFromTime_range t : 1 <= DateFromTime t <= 31.
Proof.
  pose proof (DayWithinYear_range t) as R. rewrite InLeapYear_days in R.
  assert (0 <= InLeapYear t <= 1) as L by (unfold InLeapYear; case_match; lia).
  unfold DateFromTime, MonthFromTime, monthStart.
  repeat case_match; lia.
Qed.

Lemma year_range_time t :
  1000 <= YearFromTime t <= 9999 -> - maxTime <= Day t * msPerDay <= maxTime.
Proof.
  intros Hy. unfold YearFromTime in Hy.
  pose proof (YearFromDay_bounds (Day t)) as B.
  pose proof (DayFromYear_mono 1000 (YearFromDay (Day t)) ltac:(lia)).
  pose proof (DayFromYear_mono (YearFromDay (Day t) + 1) 10000 ltac:(lia)).
  change (DayFromYear 1000) with (-354285) in *.
  change (DayFromYear 10000) with 2932897 in *.
  unfold maxTime, msPerDay. lia.
Qed.

Lemma formatDateShort_fields host t :
  formatDateShort host (Some (inl (DateOfTime t)))
  = numberToString (Some (YearFromTime t)) ++ lit "-"
    ++ padStart 2 48 (numberToString (Some (MonthFromTime t + 1))) ++ lit "-"
    ++ padStart 2 48 (numberToString (Some (DateFromTime t))).
Proof. reflexivity. Qed.

(** X9.  For every valid Date whose UTC year has four digits (1000 to
    9999), [formatDateShort] writes a string of the form YYYY-MM-DD, and
    [parseDateSafe] reads that string back as the UTC midnight of the day
    of the Date, under every host parser. *)
Theorem formatDateShort_reparses host t :
  1000 <= YearFromTime t <= 9999 ->
  isoPattern (formatDateShort host (Some (inl (DateOfTime t)))) = true
  /\ parseDateSafe host (formatDateShort host (Some (inl (DateOfTime t))))
     = Some (DateOfTime (Day t * msPerDay)).
Proof.
  intros Hy. rewrite formatDateShort_fields.
  destruct (year_digits _ Hy) as (a & b & c & d & -> & Hd & Hv).
  pose proof (MonthFromTime_range t) as HM.
  destruct (two_digits (MonthFromTime t + 1) ltac:(lia)) as (m1 & m2 & -> & Hdm & Hvm).
  destruct (two_digits _ (DateFromTime_range t)) as (d1 & d2 & -> & Hdd & Hvd).
  repeat match goal with
         | H : Forall _ (_ :: _) |- _ => apply Forall_cons in H as [? H]
         end.
  change ([a; b; c; d] ++ lit "-" ++ [m1; m2] ++ lit "-" ++ [d1; d2])
    with [a; b; c; d; MINUS; m1; m2; MINUS; d1; d2].
  assert (isoPattern [a; b; c; d; MINUS; m1; m2; MINUS; d1; d2] = true) as Hp.
  { unfold isoPattern.
    repeat match goal with H : isDigit _ = true |- _ => rewrite H; clear H end.
    reflexivity. }
  split; [exact Hp|].
  rewrite parseDateSafe_iso_Date_UTC by exact Hp.
  change (isoYear _) with (digitsValue [a; b; c; d]).
  change (isoMonth _) with (digitsValue [m1; m2]).
  change (isoDay _) with (digitsValue [d1; d2]).
  rewrite Hv, Hvm, Hvd.
  replace (MonthFromTime t + 1 - 1) with (MonthFromTime t) by lia.
  unfold Date_UTC, newDateOfNum. cbn [mbind option_bind].
  unfold MakeFullYear. replace ((0 <=? YearFromTime t) && (YearFromTime t <=? 99)) with false by lia.
  rewrite MakeDay_fields.
  replace (MakeDate (Day t - DateFromTime t + DateFromTime t) (MakeTime 0 0 0 0))
    with (Day t * msPerDay) by (unfold MakeDate, MakeTime; lia).
  rewrite (TimeClip_in_range _ (year_range_time t Hy)). cbn [mbind option_bind].
  rewrite (TimeClip_in_range _ (year_range_time t Hy)). reflexivity.
Qed.

Lemma formatDateShort_reparses_witness :
  isoPattern (formatDateShort noHostParse (Some (inl (DateOfTime (jan15 + 3600000))))) = true
  /\ parseDateSafe noHostParse
       (formatDateShort noHostParse (Some (inl (DateOfTime (jan15 + 3600000)))))
     = Some (DateOfTime (Day (jan15 + 3600000) * msPerDay)).
Proof.
  apply (formatDateShort_reparses noHostParse (jan15 + 3600000)).
  split; vm_compute; discriminate.
Defined.

Lemma digits_inj l1 l2 :
  length l1 = length l2 ->
  Forall (fun c => isDigit c = true) l1 -> Forall (fun c => isDigit c = true) l2 ->
  (length l1 <= 4)%nat ->
  digitsValue l1 = digitsValue l2 -> l1 = l2.
Proof.
  intros Hlen H1 H2 Hle E.
  destruct l1 as [|a1 [|a2 [|a3 [|a4 [|]]]]];
    destruct l2 as [|b1 [|b2 [|b3 [|b4 [|]]]]];
    simpl in Hlen, Hle; try lia; try done.
  all: repeat match goal with
         | H : Forall _ (_ :: _) |- _ => apply Forall_cons in H as [?%isDigit_value H]
         end.
  all: unfold digitsValue in E; cbn [fold_left] in E; repeat f_equal; lia.
Qed.

(** X10.  For every string of the form YYYY-MM-DD that names a valid
    calendar date of a year from 1000 on, [formatDateShort] gives the
    string back, both from the string itself and from the Date that
    [parseAnyDate] makes of it (what the card shows for such a raw date),
    under every host parser and at every instant. *)
Theorem formatDateShort_of_iso host clock v :
  isoPattern v = true ->
  1000 <= isoYear v ->
  validCalendarDate (isoYear v) (isoMonth v) (isoDay v) ->
  formatDateShort host (Some (inr v)) = v
  /\ formatDateShort host (inl <$> parseAnyDate host clock v) = v.
Proof.
  intros Hp Hy Hv.
  destruct (parseDateSafe_iso_utc_midnight host v Hp ltac:(lia) Hv)
    as (t & E & HY & HM & HD & _).
  pose proof (isoYear_bound v Hp) as Hb.
  assert (formatDateShort host (Some (inl (DateOfTime t))) = v) as Hdate.
  { rewrite formatDateShort_fields.
    rewrite HY, HM, HD. replace (isoMonth v - 1 + 1) with (isoMonth v) by lia.
    destruct Hv as [Hm Hd].
    assert (isoDay v <= 31) as Hd31.
    { unfold DaysInMonth in Hd. repeat case_match; lia. }
    destruct (year_digits (isoYear v) ltac:(lia)) as (a & b & c & d & -> & Hda & Hva).
    destruct (two_digits (isoMonth v) ltac:(lia)) as (m1 & m2 & -> & Hdm & Hvm).
    destruct (two_digits (isoDay v) ltac:(lia)) as (d1 & d2 & -> & Hdd & Hvd).
    destruct (isoPattern_inv v Hp) as (y1&y2&y3&y4&n1&n2&e1&e2&->&Hdv).
    repeat match goal with
           | H : Forall _ (_ :: _ :: _ :: _ :: _ :: _) |- _ =>
               apply Forall_cons in H as [? H]
           end.
    unfold isoYear, isoMonth, isoDay in Hva, Hvm, Hvd.
    cbn [take drop] in Hva, Hvm, Hvd.
    apply Forall_cons in Hdv as [? Hdv]. apply Forall_cons in Hdv as [? Hdv].
    apply Forall_cons in Hdv as [? Hdv]. apply Forall_cons in Hdv as [? Hdv].
    apply digits_inj in Hva; [|done|done|all_digits|simpl; lia].
    apply digits_inj in Hvm; [|done|done|all_digits|simpl; lia].
    apply digits_inj in Hvd; [|done|done|all_digits|simpl; lia].
    by rewrite Hva, Hvm, Hvd. }
  split.
  - unfold formatDateShort. rewrite E. exact Hdate.
  - unfold parseAnyDate. rewrite E. exact Hdate.
Qed.

Lemma formatDateShort_of_iso_witness :
  formatDateShort noHostParse (Some (inr (lit "2024-02-29"))) = lit "2024-02-29"
  /\ formatDateShort noHostParse (inl <$> parseAnyDate noHostParse jan15 (lit "2024-02-29"))
     = lit "2024-02-29".
Proof.
  apply (formatDateShort_of_iso noHostParse jan15 (lit "2024-02-29")).
  - reflexivity.
  - vm_compute. discriminate.
  - repeat split; vm_compute; discriminate.
Defined.

End Formatting.

(* ===================================================================== *)
(** ** Curated lists, the rows of the page and the dropdowns *)
(* ===================================================================== *)

Section RowsAndOptions.

Lemma getProp_elem r k v : getProp r k = Some v -> (k, v) ∈ r.
Proof.
  induction r as [|[k' v'] r IH]; simpl; [done|].
  destruct (str_eqb k' k) eqn:E.
  - apply str_eqb_true in E as ->. intros [= ->]. left.
  - intros H. right. by apply IH.
Qed.

Lemma firstTruthy_single o x :
  firstTruthy [o] = x -> x <> [] -> o = Some x.
Proof. destruct o as [[|c s]|]; simpl; intros <-; done. Qed.

(** X11.  Whatever the rows and the candidate headers are, the list that
    [extractCSVList] returns has no duplicates, and each of its elements is
    not empty, has no white space around it, and is the trimmed text of a
    cell of one of the rows. *)
Theorem extractCSVList_members lc rows candidates :
  NoDup (extractCSVList lc rows candidates)
  /\ forall x, x ∈ extractCSVList lc rows candidates ->
       x <> [] /\ trim x = x
       /\ exists r k v, r ∈ rows /\ (k, v) ∈ r /\ x = trim v.
Proof.
  unfold extractCSVList. destruct rows as [|r0 rows']; [split; [constructor|by intros ? ?%elem_of_nil]|].
  set (rows := r0 :: rows'). clearbody rows.
  destruct (chooseColumn _ candidates) as [chosen|];
    [|split; [constructor|by intros ? ?%elem_of_nil]].
  split.
  - rewrite sort_Permutation. apply arrayFromSet_NoDup.
  - intros x. rewrite sort_Permutation, arrayFromSet_elem, List_filter_elem, nonEmpty_true.
    intros [Hx Hne]. apply list_elem_of_fmap in Hx as (r & -> & Hr).
    split; [done|]. split; [apply trim_idem|].
    destruct (firstTruthy [getProp r chosen]) as [|c s] eqn:E; [done|].
    apply firstTruthy_single in E; [|done].
    exists r, chosen, (c :: s). split; [done|]. split; [by apply getProp_elem|done].
Qed.

Lemma extractCSVList_members_witness :
  lit "Al" <> [] /\ trim (lit "Al") = lit "Al"
  /\ exists r k v, r ∈ [[(lit "name", lit " Al ")]] /\ (k, v) ∈ r /\ lit "Al" = trim v.
Proof.
  apply (extractCSVList_members codeUnitCompare [[(lit "name", lit " Al ")]]
           [lit "name"]).
  vm_compute. left.
Defined.






Lemma take_elem {A} (l : list A) n x : x ∈ take n l -> x ∈ l.
Proof. intros H. eapply sublist_subseteq; [apply sublist_take|done]. Qed.

Lemma limited_elem l m x : x ∈ limited l m -> x ∈ l.
Proof.
  unfold limited, slice0. destruct ((m =? 0) || (m =? -1)); [done|]. apply take_elem.
Qed.

(** X13.  Every post that reaches the page, through the load, the four
    stages, the sort and the limit, whatever the controls are, has a title
    and a url that are not empty and an include flag that
    [truthyInclude] accepts. *)
Theorem displayed_posts_surfaced lc host clockAt clock data authors tags_ period
    search maxResults p :
  p ∈ limited (filtered lc clock (loadRows host clockAt data) authors tags_
                 period search) maxResults ->
  title p <> [] /\ url p <> [] /\ truthyInclude (include p) = true.
Proof.
  intros H. apply limited_elem in H. unfold filtered in H.
  rewrite sort_Permutation in H.
  eapply sublist_subseteq in H; [|apply filterStages_sublist].
  unfold loadRows in H. apply List_filter_elem in H as [_ H].
  unfold surfaced in H. rewrite !andb_true_iff, !nonEmpty_true in H. tauto.
Qed.

Lemma displayed_posts_surfaced_witness :
  let p := mkPost [] [] None [] (lit "T") [] [] (lit "u") in
  title p <> [] /\ url p <> [] /\ truthyInclude (include p) = true.
Proof.
  apply (displayed_posts_surfaced codeUnitCompare noHostParse (fun _ => jan15) jan15
           [[(lit "title", lit "T"); (lit "url", lit "u")]] [] [] (-1) [] (-1)).
  vm_compute. left.
Defined.

Lemma List_filter_all {A} (f : A -> bool) l :
  (forall x, x ∈ l -> f x = true) -> List.filter f l = l.
Proof.
  induction l as [|x l IH]; simpl; intros H; [done|].
  rewrite (H x) by left. f_equal. apply IH. intros y Hy. apply H. by right.
Qed.

(** X14.  With every author of the fall-back list selected (the list
    offered when there is no curated file), the author stage keeps every
    row, the rows without an author among them. *)
Theorem all_authors_selected_keeps_all lc rows :
  authorStage (fallbackAuthors lc rows) rows = rows.
Proof.
  unfold authorStage. destruct (nonEmpty _); [|done].
  apply List_filter_all. intros r Hr. apply includes_elem.
  unfold fallbackAuthors. rewrite sort_Permutation, arrayFromSet_elem.
  apply list_elem_of_fmap. eauto.
Qed.

(** X15.  [toggle] returns a selection without duplicates; the item is in
    it exactly when it was not in the selection before; and every other
    string is in it exactly when it was in the selection before. *)
Theorem toggle_spec temp item :
  NoDup (toggle temp item)
  /\ (item ∈ toggle temp item <-> item ∉ temp)
  /\ (forall x, x <> item -> (x ∈ toggle temp item <-> x ∈ temp)).
Proof.
  unfold toggle.
  destruct (includes (arrayFromSet temp) item) eqn:E.
  - apply includes_elem in E. rewrite arrayFromSet_elem in E.
    split; [apply List_filter_NoDup, arrayFromSet_NoDup|]. split.
    + rewrite List_filter_elem, negb_true_iff, str_eqb_false.
      split; [by intros [_ ?]|by intros ?].
    + intros x Hx. rewrite List_filter_elem, arrayFromSet_elem, negb_true_iff, str_eqb_false.
      intuition congruence.
  - assert (item ∉ temp) as Hn.
    { intros H. rewrite <- arrayFromSet_elem, <- includes_elem in H. congruence. }
    split; [|split].
    + apply NoDup_app. split; [apply arrayFromSet_NoDup|]. split; [|apply NoDup_singleton].
      intros x Hx ->%list_elem_of_singleton. apply Hn. by apply arrayFromSet_elem.
    + rewrite elem_of_app, list_elem_of_singleton. tauto.
    + intros x Hx. rewrite elem_of_app, arrayFromSet_elem, list_elem_of_singleton.
      tauto.
Qed.

Lemma toggle_spec_witness :
  lit "a" ∈ toggle [lit "a"] (lit "b") <-> lit "a" ∈ [lit "a"].
Proof.
  destruct (toggle_spec [lit "a"] (lit "b")) as (_ & _ & H).
  apply H. discriminate.
Defined.

(** X16.  The pruning of a selection keeps exactly the selected strings
    that are allowed, in their order; it changes nothing when every
    selected string is allowed; and pruning again changes nothing. *)
Theorem pruneSelection_spec allowed prev :
  (forall a, a ∈ pruneSelection allowed prev <-> a ∈ prev /\ a ∈ allowed)
  /\ sublist (pruneSelection allowed prev) prev
  /\ ((forall a, a ∈ prev -> a ∈ allowed) -> pruneSelection allowed prev = prev)
  /\ pruneSelection allowed (pruneSelection allowed prev) = pruneSelection allowed prev.
Proof.
  unfold pruneSelection. split; [|split; [|split]].
  - intros a. by rewrite List_filter_elem, includes_elem.
  - apply List_filter_sublist.
  - intros H. induction prev as [|a prev IH]; simpl; [done|].
    replace (includes allowed a) with true
      by (symmetry; apply includes_elem, H; left).
    f_equal. apply IH. intros b Hb. apply H. by right.
  - rewrite List_filter_filter. apply List_filter_ext. intros a. by destruct (includes allowed a).
Qed.

Lemma pruneSelection_spec_witness :
  pruneSelection [lit "a"; lit "b"] [lit "b"] = [lit "b"].
Proof.
  destruct (pruneSelection_spec [lit "a"; lit "b"] [lit "b"]) as (_ & _ & H & _).
  apply H. intros a ->%list_elem_of_singleton.
  apply elem_of_cons. right. apply elem_of_cons. by left.
Defined.

Lemma uniqueSorted_elem lc arr x :
  x ∈ uniqueSorted lc arr <-> x ∈ arr /\ x <> [].
Proof.
  unfold uniqueSorted.
  rewrite sort_Permutation, arrayFromSet_elem, List_filter_elem, nonEmpty_true.
  done.
Qed.

(** Without a curated file, every option offered for the authors is the
    author of a row. *)
Lemma offered_author_of_row lc rows x :
  x ∈ offeredOptions (authorOptionsOf lc None rows) (allAuthors lc rows) ->
  x ∈ map author rows.
Proof.
  unfold offeredOptions, authorOptionsOf, allAuthors, fallbackAuthors.
  destruct (nonEmpty rows); [destruct (nonEmpty _)|cbn [nonEmpty]].
  - by rewrite sort_Permutation, arrayFromSet_elem.
  - rewrite uniqueSorted_elem. tauto.
  - rewrite uniqueSorted_elem. tauto.
Qed.

(** X17.  Without a curated file of authors, a selection that the pruning
    effect has left not empty never empties the list at the author stage:
    each selected author is the author of a row. *)
Theorem pruned_selection_matches_some_row lc rows prev :
  let allowed := offeredOptions (authorOptionsOf lc None rows) (allAuthors lc rows) in
  let authors := pruneSelection allowed prev in
  authors <> [] -> authorStage authors rows <> [].
Proof.
  intros allowed authors Hne.
  destruct authors as [|a rest] eqn:E; [done|].
  assert (a ∈ pruneSelection allowed prev) as Ha
    by (fold authors in E |- *; rewrite E; left).
  unfold pruneSelection in Ha.
  apply List_filter_elem in Ha as [_ Ha%includes_elem].
  apply offered_author_of_row, list_elem_of_fmap in Ha as (r & -> & Hr).
  unfold authorStage. cbn [nonEmpty].
  assert (r ∈ List.filter (fun r0 => includes (author r :: rest) (author r0)) rows) as Hin.
  { apply List_filter_elem. split; [done|]. apply includes_elem. left. }
  intros Hnil. rewrite Hnil in Hin. by apply elem_of_nil in Hin.
Qed.

Lemma pruned_selection_matches_some_row_witness :
  authorStage
    (pruneSelection
       (offeredOptions (authorOptionsOf codeUnitCompare None [samplePost None "Al" "t"])
          (allAuthors codeUnitCompare [samplePost None "Al" "t"]))
       [lit "Zed"; lit "Al"])
    [samplePost None "Al" "t"] <> [].
Proof.
  apply (pruned_selection_matches_some_row codeUnitCompare
           [samplePost None "Al" "t"] [lit "Zed"; lit "Al"]).
  vm_compute. discriminate.
Defined.

End RowsAndOptions.

(* ===================================================================== *)
(** ** What the units of a relative phrase do to the date *)
(* ===================================================================== *)

Section UnitsOfTime.


Lemma MakeDate_fields y mn d tw :
  0 <= mn <= 11 -> 1 <= d <= DaysInMonth y (mn + 1) -> 0 <= tw < msPerDay ->
  YearFromTime (MakeDate (MakeDay y mn d) tw) = y
  /\ MonthFromTime (MakeDate (MakeDay y mn d) tw) = mn
  /\ DateFromTime (MakeDate (MakeDay y mn d) tw) = d
  /\ TimeWithinDay (MakeDate (MakeDay y mn d) tw) = tw.
Proof.
  intros Hm Hd Htw.
  set (leap := if DaysInYear y =? 366 then 1 else 0).
  set (day := DayFromYear y + monthStart leap mn + d - 1).
  assert (MakeDay y mn d = day) as ->.
  { unfold MakeDay.
    replace (mn / 12) with 0 by (Z.div_mod_to_equations; lia).
    replace (mn mod 12) with mn by (Z.div_mod_to_equations; lia).
    by rewrite Z.add_0_r. }
  set (t := MakeDate day tw).
  assert (Day t = day) as HD
    by (unfold t, MakeDate, Day, msPerDay in *; Z.div_mod_to_equations; lia).
  assert (0 <= monthStart leap mn + d - 1 < DaysInYear y
          /\ (YearFromTime t = y -> MonthFromTime t = mn)) as [Hin HM].
  { unfold MonthFromTime, DayWithinYear, InLeapYear. rewrite HD.
    subst day leap. unfold DaysInMonth in Hd.
    assert (1 <= mn + 1 <= 12) as Hm1 by lia.
    destruct (leap_cases y) as [[L1 L2]|[L1 L2]]; rewrite L2 in *; rewrite L1;
    destruct (month_cases (mn + 1) Hm1)
      as [E|[E|[E|[E|[E|[E|[E|[E|[E|[E|[E|E]]]]]]]]]]];
      rewrite E in Hd;
      match type of E with _ = ?k => assert (mn = k - 1) as -> by lia end;
      simpl in Hd; eval_monthStart; (split; [lia|]); intros ->; rewrite L2;
      repeat match goal with
             | |- context [?a <? ?b] => destruct (Z.ltb_spec a b)
             end; lia. }
  assert (YearFromTime t = y) as HY.
  { unfold YearFromTime. rewrite HD. apply YearFromDay_unique.
    rewrite DayFromYear_step. subst day. lia. }
  repeat split; [done|by apply HM| |].
  - unfold DateFromTime, DayWithinYear, InLeapYear. rewrite (HM HY), HD, HY.
    subst day leap. lia.
  - unfold t, MakeDate, TimeWithinDay, msPerDay in *. Z.div_mod_to_equations. lia.
Qed.

Lemma TimeWithinDay_range t : 0 <= TimeWithinDay t < msPerDay.
Proof. unfold TimeWithinDay, msPerDay. Z.div_mod_to_equations. lia. Qed.

Lemma MakeDay_carry y m d :
  MakeDay y m d = MakeDay (y + m / 12) (m mod 12) d.
Proof.
  unfold MakeDay.
  replace (m mod 12 / 12) with 0 by (Z.div_mod_to_equations; lia).
  replace (m mod 12 mod 12) with (m mod 12) by (Z.div_mod_to_equations; lia).
  by rewrite Z.add_0_r.
Qed.

(** X19.  For months, when the result is a valid Date and the day of the
    month of [now] exists in the month reached, the result has the UTC
    year and month that lie [n] months before those of [now], and the same
    day of the month and time of day. *)
Theorem shiftBack_months T n t' :
  getTime (shiftBack (DateOfTime T) Kmonth (Some n)) = Some t' ->
  DateFromTime T
    <= DaysInMonth (YearFromTime T + (MonthFromTime T - n) / 12)
         ((MonthFromTime T - n) mod 12 + 1) ->
  YearFromTime t' = YearFromTime T + (MonthFromTime T - n) / 12
  /\ MonthFromTime t' = (MonthFromTime T - n) mod 12
  /\ DateFromTime t' = DateFromTime T
  /\ TimeWithinDay t' = TimeWithinDay T.
Proof.
  unfold shiftBack, setUTCMonth, getUTCMonth, num_sub. simpl.
  intros ->%TimeClip_Some Hd. rewrite MakeDay_carry.
  apply MakeDate_fields.
  - Z.div_mod_to_equations. lia.
  - pose proof (DateFromTime_range T). lia.
  - apply TimeWithinDay_range.
Qed.

(** X20.  For years, when the result is a valid Date and the day of the
    month of [now] exists in that month of the year reached (all but 29
    February), the result has the UTC year of [now] minus [n] and the same
    month, day of the month and time of day. *)
Theorem shiftBack_years T n t' :
  getTime (shiftBack (DateOfTime T) Kyear (Some n)) = Some t' ->
  DateFromTime T <= DaysInMonth (YearFromTime T - n) (MonthFromTime T + 1) ->
  YearFromTime t' = YearFromTime T - n
  /\ MonthFromTime t' = MonthFromTime T
  /\ DateFromTime t' = DateFromTime T
  /\ TimeWithinDay t' = TimeWithinDay T.
Proof.
  unfold shiftBack, setUTCFullYear, getUTCFullYear, num_sub. simpl.
  intros ->%TimeClip_Some Hd.
  apply MakeDate_fields.
  - apply MonthFromTime_range.
  - pose proof (DateFromTime_range T). lia.
  - apply TimeWithinDay_range.
Qed.

Lemma shiftBack_months_witness :
  YearFromTime 1697328000000 = 2023 /\ MonthFromTime 1697328000000 = 9
  /\ DateFromTime 1697328000000 = 15 /\ TimeWithinDay 1697328000000 = 0.
Proof.
  apply (shiftBack_months jan15 3 1697328000000); vm_compute; [reflexivity|discriminate].
Defined.

Lemma shiftBack_years_witness :
  YearFromTime 1579046400000 = 2020 /\ MonthFromTime 1579046400000 = 0
  /\ DateFromTime 1579046400000 = 15 /\ TimeWithinDay 1579046400000 = 0.
Proof.
  apply (shiftBack_years jan15 4 1579046400000); vm_compute; [reflexivity|discriminate].
Defined.

End UnitsOfTime.


(* ===================================================================== *)
(** ** The relative phrases that the parser of the page recognizes *)
(* ===================================================================== *)

Section RecognizedPhrases.


Lemma isDigit_range c : isDigit c = true <-> (48 <= c <= 57)%N.
Proof. unfold isDigit. rewrite andb_true_iff, !N.leb_le. tauto. Qed.

Lemma isLetter_range c : isLetter c = true <-> (97 <= c <= 122)%N.
Proof. unfold isLetter. rewrite andb_true_iff, !N.leb_le. tauto. Qed.

Lemma quiet_range c : quiet c -> (c = 32 \/ 48 <= c <= 57 \/ 97 <= c <= 122)%N.
Proof. unfold quiet, SPACE. rewrite isDigit_range, isLetter_range. lia. Qed.

Lemma lowerUnit_quiet c : quiet c -> lowerUnit c = c.
Proof.
  intros H%quiet_range. unfold lowerUnit.
  destruct ((65 <=? c)%N && (c <=? 90)%N) eqn:E; [|done].
  apply andb_prop in E as [?%N.leb_le ?%N.leb_le]. lia.
Qed.

Lemma toLowerCase_quiet v : Forall quiet v -> toLowerCase v = v.
Proof.
  unfold toLowerCase. induction 1 as [|c v Hc Hv IH]; simpl; [done|].
  by rewrite lowerUnit_quiet, IH.
Qed.

Lemma not_white c : (48 <= c <= 122)%N -> isWhiteSpace c = false.
Proof.
  intros H. destruct (isWhiteSpace c) eqn:E; [|done].
  apply isWhiteSpace_not_letter in E. lia.
Qed.

Lemma trim_fixed v :
  trimStart v = v -> trimStart (rev v) = rev v -> trim v = v.
Proof.
  intros H1 H2. unfold trim, trimEnd. by rewrite H1, H2, rev_involutive.
Qed.

Lemma split_absent ch v : ch ∉ v -> split ch v = [v].
Proof.
  induction v as [|c v IH]; simpl; [done|].
  intros H. apply not_elem_of_cons in H as [Hc Hv].
  replace (c =? ch)%N with false by (symmetry; by apply N.eqb_neq).
  by rewrite IH.
Qed.

Lemma replace_junk_quiet v :
  Forall quiet v ->
  fold_left (fun s ch => join [SPACE] (split ch s)) junk v = v.
Proof.
  intros Hv.
  assert (forall ch, ch ∈ junk -> ch ∉ v) as Hj.
  { intros ch Hch Hin. rewrite Forall_forall in Hv.
    apply Hv, quiet_range in Hin. unfold junk in Hch.
    repeat (apply elem_of_cons in Hch as [->|Hch]; [lia|]).
    by apply elem_of_nil in Hch. }
  unfold junk at 1. cbn [fold_left].
  rewrite (split_absent 183 v)
    by (apply Hj; unfold junk; rewrite !elem_of_cons; tauto); cbn [join].
  rewrite (split_absent 8226 v)
    by (apply Hj; unfold junk; rewrite !elem_of_cons; tauto); cbn [join].
  rewrite (split_absent 8211 v)
    by (apply Hj; unfold junk; rewrite !elem_of_cons; tauto); cbn [join].
  rewrite (split_absent 8212 v)
    by (apply Hj; unfold junk; rewrite !elem_of_cons; tauto); cbn [join].
  rewrite (split_absent 46 v)
    by (apply Hj; unfold junk; rewrite !elem_of_cons; tauto); cbn [join].
  done.
Qed.

Lemma replaceDoubleSpace_cons c s :
  c <> SPACE -> replaceDoubleSpace (c :: s) = cons c <$> replaceDoubleSpace s.
Proof.
  intros Hc. destruct s as [|c' s]; [done|].
  change (replaceDoubleSpace (c :: c' :: s))
    with (if (c =? SPACE)%N && (c' =? SPACE)%N then Some (c :: s)
          else cons c <$> replaceDoubleSpace (c' :: s)).
  by replace (c =? SPACE)%N with false by (symmetry; by apply N.eqb_neq).
Qed.

Lemma replaceDoubleSpace_app a b :
  SPACE ∉ a -> replaceDoubleSpace (a ++ b) = app a <$> replaceDoubleSpace b.
Proof.
  induction a as [|c a IH]; intros Ha.
  - simpl. by destruct (replaceDoubleSpace b).
  - apply not_elem_of_cons in Ha as [Hc Ha].
    change ((c :: a) ++ b) with (c :: (a ++ b)).
    rewrite replaceDoubleSpace_cons, IH by done.
    by destruct (replaceDoubleSpace b).
Qed.

Lemma replaceDoubleSpace_space c b :
  c <> SPACE ->
  replaceDoubleSpace (SPACE :: c :: b) = cons SPACE <$> replaceDoubleSpace (c :: b).
Proof.
  intros Hc.
  change (replaceDoubleSpace (SPACE :: c :: b))
    with (if (SPACE =? SPACE)%N && (c =? SPACE)%N then Some (SPACE :: b)
          else cons SPACE <$> replaceDoubleSpace (c :: b)).
  replace (c =? SPACE)%N with false by (symmetry; by apply N.eqb_neq).
  by rewrite andb_false_r.
Qed.

Lemma collapseSpaces_fixed v : replaceDoubleSpace v = None -> collapseSpaces v = v.
Proof. intros H. unfold collapseSpaces. destruct (length v); simpl; by rewrite ?H. Qed.

Lemma numUnitSpacingFrom_app p a b :
  numUnitSpacingFrom p (a ++ b)
  = numUnitSpacingFrom p a
    ++ numUnitSpacingFrom (match last a with Some x => Some x | None => p end) b.
Proof.
  revert p. induction a as [|c a IH]; intros p; [done|].
  assert (match last (c :: a) with Some x => Some x | None => p end
          = match last a with Some x => Some x | None => Some c end) as ->
    by (destruct a as [|n a]; [done|];
        change (last (c :: n :: a)) with (last (n :: a));
        destruct (last (n :: a)) eqn:E; [done|]; by apply last_None in E).
  change ((c :: a) ++ b) with (c :: (a ++ b)). cbn [numUnitSpacingFrom].
  rewrite IH, <- !app_assoc. reflexivity.
Qed.

Lemma numUnitSpacingFrom_digits p ds :
  Forall (fun c => isDigit c = true) ds -> numUnitSpacingFrom p ds = ds.
Proof.
  intros H. revert p. induction H as [|c ds Hc Hds IH]; intros p; [done|].
  cbn [numUnitSpacingFrom]. rewrite IH.
  replace (isLetter c) with false; [by destruct p; rewrite ?andb_false_r|].
  apply isDigit_range in Hc. symmetry. apply not_true_is_false.
  rewrite isLetter_range. lia.
Qed.

Lemma numUnitSpacingFrom_letters p u :
  Forall (fun c => isLetter c = true) u ->
  from_option isDigit false p = false ->
  numUnitSpacingFrom p u = u.
Proof.
  intros H. revert p. induction H as [|c u Hc Hu IH]; intros p Hp; [done|].
  cbn [numUnitSpacingFrom]. rewrite IH.
  - destruct p as [x|]; [|done]. simpl in Hp. by rewrite Hp.
  - simpl. apply isLetter_range in Hc. apply not_true_is_false.
    rewrite isDigit_range. lia.
Qed.

Lemma numUnitSpacingFrom_after_digit d u :
  isDigit d = true -> u <> [] -> Forall (fun c => isLetter c = true) u ->
  numUnitSpacingFrom (Some d) u = SPACE :: u.
Proof.
  intros Hd Hne Hu. destruct u as [|c u]; [done|].
  apply Forall_cons in Hu as [Hc Hu]. cbn [numUnitSpacingFrom].
  rewrite Hd, Hc.
  replace (d =? SPACE)%N with false
    by (symmetry; apply N.eqb_neq; apply isDigit_range in Hd; unfold SPACE; lia).
  cbn. do 2 f_equal. apply numUnitSpacingFrom_letters; [done|].
  simpl. apply isLetter_range in Hc. apply not_true_is_false.
  rewrite isDigit_range. lia.
Qed.

Lemma numUnitSpacingFrom_space p b :
  numUnitSpacingFrom p (SPACE :: b) = SPACE :: numUnitSpacingFrom (Some SPACE) b.
Proof.
  cbn [numUnitSpacingFrom]. change (isLetter SPACE) with false.
  destruct p; by rewrite ?andb_false_r.
Qed.

Lemma lookupKind_elem m u k :
  lookupKind m u = Some k -> exists forms, (k, forms) ∈ m /\ u ∈ forms.
Proof.
  induction m as [|[k' forms] m IH]; simpl; [done|].
  destruct (includes forms u) eqn:E.
  - intros [= ->]. exists forms. split; [left|by apply includes_elem].
  - intros H. destruct (IH H) as (f & ? & ?). exists f. split; [by right|done].
Qed.

Lemma unit_letters u k :
  lookupKind unitMap u = Some k ->
  u <> [] /\ Forall (fun c => isLetter c = true) u.
Proof.
  intros (forms & Hk & Hu)%lookupKind_elem.
  assert (forallb (fun kf : Kind * list jsstring =>
            forallb (fun w => nonEmpty w && forallb isLetter w) (snd kf)) unitMap
          = true) as H by reflexivity.
  rewrite forallb_forall in H. apply list_elem_of_In, H in Hk. simpl in Hk.
  rewrite forallb_forall in Hk. apply list_elem_of_In, Hk in Hu.
  apply andb_prop in Hu as [H1 H2]. split; [by destruct u|].
  apply Forall_forall. intros c Hc. rewrite forallb_forall in H2.
  by apply H2, list_elem_of_In.
Qed.

Lemma digitsValue_bound ds :
  Forall (fun c => isDigit c = true) ds ->
  0 <= digitsValue ds < 10 ^ Z.of_nat (length ds).
Proof.
  unfold digitsValue. intros H.
  assert (forall acc, 0 <= acc ->
            0 <= fold_left (fun acc c => 10 * acc + (Z.of_N c - 48)) ds acc
            <= (acc + 1) * 10 ^ Z.of_nat (length ds) - 1) as G.
  { induction H as [|c ds Hc Hds IH]; intros acc Hacc.
    - simpl. lia.
    - cbn [fold_left length]. apply isDigit_value in Hc.
      specialize (IH (10 * acc + (Z.of_N c - 48)) ltac:(lia)).
      rewrite Nat2Z.inj_succ, Z.pow_succ_r by lia.
      pose proof (Z.pow_pos_nonneg 10 (Z.of_nat (length ds)) ltac:(lia) ltac:(lia)).
      nia. }
  specialize (G 0 ltac:(lia)). lia.
Qed.

Lemma digits_no_space ds : Forall (fun c => isDigit c = true) ds -> SPACE ∉ ds.
Proof.
  intros H Hin. rewrite Forall_forall in H. apply H in Hin. done.
Qed.

Lemma letters_no_space u : Forall (fun c => isLetter c = true) u -> SPACE ∉ u.
Proof.
  intros H Hin. rewrite Forall_forall in H. apply H in Hin. done.
Qed.

Lemma parseInt10_digits ds :
  ds <> [] -> Forall (fun c => isDigit c = true) ds ->
  parseInt10 ds = Some (digitsValue ds).
Proof.
  intros Hne Hd. destruct ds as [|d0 ds']; [done|]. clear Hne.
  pose proof Hd as Hd'. apply Forall_cons in Hd' as [H0 _].
  pose proof H0 as R%isDigit_range.
  unfold parseInt10. rewrite trimStart_fixed by (apply not_white; lia).
  replace (d0 =? MINUS)%N with false by (symmetry; apply N.eqb_neq; unfold MINUS; lia).
  replace (d0 =? PLUS)%N with false by (symmetry; apply N.eqb_neq; unfold PLUS; lia).
  assert (forall l, Forall (fun c => isDigit c = true) l -> takeDigits l = l) as T.
  { induction 1 as [|c l Hc Hl IH]; simpl; [done|]. by rewrite Hc, IH. }
  rewrite T by done. by rewrite Z.mul_1_l.
Qed.

Lemma split_space_app a b :
  SPACE ∉ a -> split SPACE (a ++ SPACE :: b) = a :: split SPACE b.
Proof.
  induction a as [|c a IH]; intros Ha; [reflexivity|].
  apply not_elem_of_cons in Ha as [Hc Ha].
  change ((c :: a) ++ SPACE :: b) with (c :: (a ++ SPACE :: b)).
  cbn [split]. replace (c =? SPACE)%N with false by (symmetry; by apply N.eqb_neq).
  by rewrite IH.
Qed.

Lemma head_digit_differs (d0 : N) ds (w : string) c0 w' :
  isDigit d0 = true -> lit w = c0 :: w' -> isDigit c0 = false ->
  str_eqb (d0 :: ds) (lit w) = false.
Proof.
  intros Hd Hw Hc. apply str_eqb_false. rewrite Hw. intros [= -> _]. congruence.
Qed.

Lemma digit_quiet ds : Forall (fun c => isDigit c = true) ds -> Forall quiet ds.
Proof. intros H. eapply Forall_impl; [exact H|]. intros c Hc. unfold quiet. tauto. Qed.

Lemma letter_quiet u : Forall (fun c => isLetter c = true) u -> Forall quiet u.
Proof. intros H. eapply Forall_impl; [exact H|]. intros c Hc. unfold quiet. tauto. Qed.

Lemma ago_quiet : Forall quiet (SPACE :: lit "ago").
Proof.
  change (lit "ago") with [97; 103; 111]%N.
  apply Forall_cons_2; [unfold quiet; tauto|].
  repeat (apply Forall_cons_2; [unfold quiet; right; left; reflexivity|]).
  apply Forall_nil_2.
Qed.

Lemma has_digit_differs s (w : string) d :
  d ∈ s -> isDigit d = true ->
  forallb (fun c => negb (isDigit c)) (lit w) = true ->
  str_eqb s (lit w) = false.
Proof.
  intros Hin Hd Hw. apply str_eqb_false. intros ->.
  rewrite forallb_forall in Hw. apply list_elem_of_In, Hw in Hin.
  by rewrite Hd in Hin.
Qed.

(** The parse of a normal form: an optional word of the prefixes, the
    quantity, the unit, and what follows the unit. *)
Lemma parse_normalized v pre ds u kind rest now :
  v <> [] ->
  (pre = []
   \/ exists w, pre = w ++ [SPACE] /\ (SPACE ∉ w)
        /\ includes (map lit ["about"; "approx"; "approximately"]%string) w = true) ->
  normalizeRelative v = pre ++ ds ++ SPACE :: u ++ rest ->
  (rest = [] \/ exists r, rest = SPACE :: r) ->
  ds <> [] -> Forall (fun c => isDigit c = true) ds ->
  (length ds <= 300)%nat ->
  lookupKind unitMap u = Some kind ->
  parseRelativeLinkedInDate v now
  = Some (shiftBack now kind (Some (digitsValue ds))).
Proof.
  intros Hv Hpre E Hrest Hne Hd Hlen Hk.
  destruct (unit_letters u kind Hk) as [Hune Hu].
  unfold parseRelativeLinkedInDate. destruct v as [|c0 v0]; [done|].
  rewrite E. destruct ds as [|d0 ds'] eqn:Eds; [done|]. rewrite <- Eds in *.
  assert (isDigit d0 = true) as H0 by (subst ds; by apply Forall_cons in Hd as [? _]).
  assert (exists parts', split SPACE (ds ++ SPACE :: u ++ rest) = ds :: u :: parts')
    as [parts' Hsplit].
  { rewrite split_space_app by by apply digits_no_space.
    destruct Hrest as [->|[r ->]].
    - rewrite app_nil_r, split_absent by by apply letters_no_space. by exists [].
    - rewrite split_space_app by by apply letters_no_space. eauto. }
  assert (d0 ∈ pre ++ ds ++ SPACE :: u ++ rest) as Hin.
  { apply elem_of_app. right. apply elem_of_app. left. rewrite Eds. left. }
  rewrite (has_digit_differs _ "just now" d0 Hin H0 eq_refl).
  rewrite (has_digit_differs _ "yesterday" d0 Hin H0 eq_refl).
  assert (includes (map lit ["about"; "approx"; "approximately"]%string) ds = false)
    as Hds.
  { apply not_true_is_false. rewrite includes_elem, Eds. cbn [map].
    rewrite !elem_of_cons. intros [H|[H|[H|H]]];
      [| | |by apply elem_of_nil in H]; injection H as -> _; done. }
  assert (isFinite (Some (digitsValue ds)) = true) as Hfin.
  { unfold isFinite. apply Z.ltb_lt.
    pose proof (digitsValue_bound ds Hd) as B.
    pose proof (Z.pow_le_mono_r 10 (Z.of_nat (length ds)) 300 ltac:(lia) ltac:(lia)).
    assert (10 ^ 300 < 2 ^ 1024 - 2 ^ 970) by (vm_compute; reflexivity).
    lia. }
  destruct Hpre as [->|(w & -> & Hw & Hinc)].
  - cbn [app]. rewrite Hsplit. cbn [lookup list_lookup]. rewrite Hds.
    cbn [lookup list_lookup].
    rewrite parseInt10_digits, Hfin by done. cbn [negb]. by rewrite Hk.
  - rewrite <- app_assoc. cbn [app]. rewrite split_space_app, Hsplit by done.
    cbn [lookup list_lookup]. rewrite Hinc. cbn [lookup list_lookup].
    rewrite parseInt10_digits, Hfin by done. cbn [negb]. by rewrite Hk.
Qed.

(** The phrase without a prefix: what the steps of the normalization see
    in it. *)
Lemma phrase_core ds sep u tail :
  ds <> [] -> Forall (fun c => isDigit c = true) ds ->
  u <> [] -> Forall (fun c => isLetter c = true) u ->
  (sep = [] \/ sep = [SPACE]) ->
  (tail = [] \/ tail = SPACE :: lit "ago") ->
  Forall quiet (ds ++ sep ++ u ++ tail)
  /\ (exists z, last (ds ++ sep ++ u ++ tail) = Some z /\ isLetter z = true)
  /\ replaceDoubleSpace (ds ++ sep ++ u ++ tail) = None
  /\ (forall p, numUnitSpacingFrom p (ds ++ sep ++ u ++ tail)
                = ds ++ SPACE :: u ++ tail).
Proof.
  intros Hdne Hd Hune Hu Hsep Htail.
  assert (exists dl, last ds = Some dl /\ isDigit dl = true) as (dl & Edl & Hdl).
  { destruct (last ds) as [dl|] eqn:E; [|by apply last_None in E].
    exists dl. split; [done|]. apply last_Some in E as [l' ->].
    apply Forall_app in Hd as [_ Hd]. by apply Forall_cons in Hd as [? _]. }
  assert (exists c0 u', u = c0 :: u' /\ isLetter c0 = true) as (c0 & u' & Eu & Hc0).
  { destruct u as [|c0 u']; [done|]. apply Forall_cons in Hu as [? _]. eauto. }
  assert (exists ul, last u = Some ul /\ isLetter ul = true) as (ul & Eul & Hul).
  { destruct (last u) as [ul|] eqn:E; [|by apply last_None in E].
    exists ul. split; [done|]. apply last_Some in E as [l' ->].
    apply Forall_app in Hu as [_ Hu]. by apply Forall_cons in Hu as [? _]. }
  assert (replaceDoubleSpace (u ++ tail) = None) as Hut.
  { rewrite replaceDoubleSpace_app by by apply letters_no_space.
    by destruct Htail as [->| ->]. }
  split; [|split; [|split]].
  - rewrite !Forall_app. split; [by apply digit_quiet|]. split.
    + destruct Hsep as [->| ->]; [apply Forall_nil_2|].
      apply Forall_cons_2; [unfold quiet; tauto|apply Forall_nil_2].
    + split; [by apply letter_quiet|].
      destruct Htail as [->| ->]; [constructor|apply ago_quiet].
  - destruct Htail as [->| ->].
    + exists ul. rewrite app_nil_r, !last_app, Eul. done.
    + exists 111%N. rewrite !last_app. split; reflexivity.
  - rewrite replaceDoubleSpace_app by by apply digits_no_space.
    destruct Hsep as [->| ->]; [simpl app; by rewrite Hut|].
    change ([SPACE] ++ u ++ tail) with (SPACE :: (u ++ tail)).
    rewrite Eu in *. change ((c0 :: u') ++ tail) with (c0 :: (u' ++ tail)) in *.
    rewrite replaceDoubleSpace_space, Hut; [done|].
    apply isLetter_range in Hc0. unfold SPACE. lia.
  - intros p.
    rewrite numUnitSpacingFrom_app, numUnitSpacingFrom_digits, Edl by done.
    f_equal.
    assert (forall q, numUnitSpacingFrom q tail = tail) as Ht.
    { intros q. destruct Htail as [->| ->]; [done|].
      by rewrite numUnitSpacingFrom_space. }
    destruct Hsep as [->| ->].
    + simpl app. rewrite numUnitSpacingFrom_app, Eul, Ht.
      by rewrite numUnitSpacingFrom_after_digit.
    + change ([SPACE] ++ u ++ tail) with (SPACE :: (u ++ tail)).
      rewrite numUnitSpacingFrom_space, numUnitSpacingFrom_app, Eul, Ht.
      by rewrite numUnitSpacingFrom_letters.
Qed.

Lemma normalize_fixed v :
  Forall quiet v -> trimStart v = v ->
  (exists z, last v = Some z /\ isLetter z = true) ->
  replaceDoubleSpace v = None ->
  normalizeRelative v = numUnitSpacing v.
Proof.
  intros Hq Hts (z & Ez & Hz) Hrds.
  assert (trimStart (rev v) = rev v) as Hte.
  { apply last_Some in Ez as [x ->]. rewrite rev_app_distr. simpl.
    rewrite (not_white z); [done|]. apply isLetter_range in Hz. lia. }
  unfold normalizeRelative.
  by rewrite (toLowerCase_quiet v Hq), (trim_fixed v Hts Hte),
    (replace_junk_quiet v Hq), (collapseSpaces_fixed v Hrds).
Qed.

(** The normal form of a phrase, with a word of letters before it or
    without. *)
Lemma normalize_form pre ds sep u tail :
  (pre = []
   \/ exists w, pre = w ++ [SPACE] /\ w <> []
        /\ Forall (fun c => isLetter c = true) w) ->
  ds <> [] -> Forall (fun c => isDigit c = true) ds ->
  u <> [] -> Forall (fun c => isLetter c = true) u ->
  (sep = [] \/ sep = [SPACE]) ->
  (tail = [] \/ tail = SPACE :: lit "ago") ->
  normalizeRelative (pre ++ ds ++ sep ++ u ++ tail)
  = pre ++ ds ++ SPACE :: u ++ tail.
Proof.
  intros Hpre Hdne Hd Hune Hu Hsep Htail.
  destruct (phrase_core ds sep u tail Hdne Hd Hune Hu Hsep Htail)
    as (Hq & (z & Ez & Hz) & Hrds & Hnum).
  assert (exists d0 ds', ds = d0 :: ds' /\ isDigit d0 = true) as (d0 & ds' & Eds & H0).
  { destruct ds as [|d0 ds']; [done|]. apply Forall_cons in Hd as [? _]. eauto. }
  set (w := ds ++ sep ++ u ++ tail) in *.
  assert (exists d1 w', w = d1 :: w' /\ isDigit d1 = true) as (d1 & w' & Ew & H1).
  { subst w. rewrite Eds. eauto. }
  destruct Hpre as [->|(x & -> & Hxne & Hx)].
  - cbn [app]. rewrite normalize_fixed; [apply Hnum|done| |eauto|done].
    rewrite Ew. apply trimStart_fixed, not_white. apply isDigit_range in H1. lia.
  - rewrite <- !app_assoc.
    rewrite normalize_fixed.
    + unfold numUnitSpacing.
      rewrite numUnitSpacingFrom_app, numUnitSpacingFrom_letters by done.
      change ([SPACE] ++ w) with (SPACE :: w).
      by rewrite numUnitSpacingFrom_space, Hnum.
    + rewrite !Forall_app. split; [by apply letter_quiet|]. split; [|done].
      apply Forall_cons_2; [unfold quiet; tauto|apply Forall_nil_2].
    + destruct x as [|x0 x']; [done|]. apply Forall_cons in Hx as [Hx0 _].
      apply trimStart_fixed, not_white. apply isLetter_range in Hx0. lia.
    + exists z. by rewrite !last_app, Ez.
    + rewrite replaceDoubleSpace_app by by apply letters_no_space.
      change ([SPACE] ++ w) with (SPACE :: w). rewrite Ew in *.
      rewrite replaceDoubleSpace_space, Hrds; [done|].
      apply isDigit_range in H1. unfold SPACE. lia.
Qed.

(** The phrases that the relative parser of the page recognizes. *)
Lemma phrase_parse pre ds u kind sep tail now :
  (pre = [] \/ pre = lit "about " \/ pre = lit "approx "
   \/ pre = lit "approximately ") ->
  ds <> [] -> Forall (fun c => isDigit c = true) ds -> (length ds <= 300)%nat ->
  lookupKind unitMap u = Some kind ->
  (sep = [] \/ sep = [SPACE]) ->
  (tail = [] \/ tail = SPACE :: lit "ago") ->
  parseRelativeLinkedInDate (pre ++ ds ++ sep ++ u ++ tail) now
  = Some (shiftBack now kind (Some (digitsValue ds))).
Proof.
  intros Hpre Hne Hd Hlen Hk Hsep Htail.
  destruct (unit_letters u kind Hk) as [Hune Hu].
  assert (pre = []
          \/ exists w, pre = w ++ [SPACE]
               /\ (w <> [] /\ Forall (fun c => isLetter c = true) w)
               /\ includes (map lit ["about"; "approx"; "approximately"]%string) w
                  = true) as Hw.
  { destruct Hpre as [->|[->|[->| ->]]]; [by left|right..];
      [exists (lit "about")|exists (lit "approx")|exists (lit "approximately")];
      (split; [reflexivity|]); (split; [|reflexivity]);
      (split; [done|]); repeat constructor. }
  apply (parse_normalized _ pre ds u kind tail); try done.
  - destruct ds; [done|]. by destruct pre.
  - destruct Hw as [->|(w & -> & [_ Hl] & Hi)]; [by left|right].
    exists w. split; [done|]. split; [by apply letters_no_space|done].
  - apply normalize_form; try done.
    destruct Hw as [->|(w & -> & [? ?] & _)]; [by left|right; eauto].
  - destruct Htail as [->| ->]; [by left|right; eauto].
Qed.

(** A string with a letter in it does not have the form YYYY-MM-DD. *)
Lemma isoPattern_letter v c :
  c ∈ v -> isLetter c = true -> isoPattern v = false.
Proof.
  intros Hin Hc. destruct (isoPattern v) eqn:E; [|done].
  apply isoPattern_inv in E as (y1&y2&y3&y4&m1&m2&d1&d2&->&Hd).
  apply isLetter_range in Hc.
  repeat match goal with
         | H : Forall _ (_ :: _) |- _ => apply Forall_cons in H as [?%isDigit_range H]
         end.
  repeat (apply elem_of_cons in Hin as [->|Hin]; [unfold MINUS in *; lia|]).
  by apply elem_of_nil in Hin.
Qed.

(** X21.  A phrase made of a quantity in decimal digits and a unit of the
    map in any of its spellings, written with or without one space between
    the two, with or without [ago] after it, and with or without one of
    the words about, approx, approximately before it (as in 3d, 2 weeks,
    12wks ago, about 3 mo ago), is recognized for every [now]: the result
    is [now] moved back by the quantity in the unit of that spelling.  So
    is the result of [parseAnyDate] on the phrase, with the wall clock for
    [now], whenever the parser of the host rejects the phrase. *)
Theorem relative_phrase_forms pre ds u kind sep tail :
  (pre = [] \/ pre = lit "about " \/ pre = lit "approx "
   \/ pre = lit "approximately ") ->
  ds <> [] -> Forall (fun c => isDigit c = true) ds -> (length ds <= 300)%nat ->
  lookupKind unitMap u = Some kind ->
  (sep = [] \/ sep = [SPACE]) ->
  (tail = [] \/ tail = SPACE :: lit "ago") ->
  (forall now,
     parseRelativeLinkedInDate (pre ++ ds ++ sep ++ u ++ tail) now
     = Some (shiftBack now kind (Some (digitsValue ds))))
  /\ (forall host clock,
        host (pre ++ ds ++ sep ++ u ++ tail) = NaN ->
        parseAnyDate host clock (pre ++ ds ++ sep ++ u ++ tail)
        = Some (shiftBack (DateOfTime clock) kind (Some (digitsValue ds)))).
Proof.
  intros Hpre Hne Hd Hlen Hk Hsep Htail.
  split; [intros now; by apply phrase_parse|].
  intros host clock Hhost.
  destruct (unit_letters u kind Hk) as [Hune Hu].
  set (v := pre ++ ds ++ sep ++ u ++ tail) in *.
  assert (isoPattern v = false) as Hiso.
  { destruct u as [|c0 u']; [done|]. apply Forall_cons in Hu as [Hc0 _].
    apply (isoPattern_letter v c0); [|done]. subst v.
    rewrite !elem_of_app. right. right. right. left. left. }
  assert (parseDateSafe host v = None) as Hsafe.
  { unfold parseDateSafe. destruct v; [done|].
    rewrite Hiso. unfold newDateOfString. by rewrite Hhost. }
  unfold parseAnyDate. rewrite Hsafe. by apply phrase_parse.
Qed.

Lemma relative_phrase_forms_witness :
  parseAnyDate noHostParse jan15
    (lit "about " ++ lit "12" ++ [] ++ lit "wks" ++ SPACE :: lit "ago")
  = Some (shiftBack (DateOfTime jan15) Kweek (Some (digitsValue (lit "12")))).
Proof.
  apply (relative_phrase_forms (lit "about ") (lit "12") (lit "wks") Kweek []
           (SPACE :: lit "ago"));
    first [done | by repeat constructor | by left | by right | (simpl; lia)
          | (right; by left)].
Defined.

End RecognizedPhrases.

(* ===================================================================== *)
(** ** The two parsers side by side, and the dates they return *)
(* ===================================================================== *)

Section TwoParsers.

Lemma LocalTime_utc t : RelativeDate.LocalTime utcHost t = t.
Proof. unfold RelativeDate.LocalTime, utcHost. lia. Qed.

Lemma UTC_utc t : RelativeDate.UTC utcHost t = t.
Proof. unfold RelativeDate.UTC, utcHost. lia. Qed.

Lemma getFullYear_utc d : RelativeDate.getFullYear utcHost d = getUTCFullYear d.
Proof.
  unfold RelativeDate.getFullYear, getUTCFullYear.
  destruct (getTime d); simpl; by rewrite ?LocalTime_utc.
Qed.
Lemma getMonth_utc d : RelativeDate.getMonth utcHost d = getUTCMonth d.
Proof.
  unfold RelativeDate.getMonth, getUTCMonth.
  destruct (getTime d); simpl; by rewrite ?LocalTime_utc.
Qed.
Lemma getDate_utc d : RelativeDate.getDate utcHost d = getUTCDate d.
Proof.
  unfold RelativeDate.getDate, getUTCDate.
  destruct (getTime d); simpl; by rewrite ?LocalTime_utc.
Qed.
Lemma getHours_utc d : RelativeDate.getHours utcHost d = getUTCHours d.
Proof.
  unfold RelativeDate.getHours, getUTCHours.
  destruct (getTime d); simpl; by rewrite ?LocalTime_utc.
Qed.
Lemma getMinutes_utc d : RelativeDate.getMinutes utcHost d = getUTCMinutes d.
Proof.
  unfold RelativeDate.getMinutes, getUTCMinutes.
  destruct (getTime d); simpl; by rewrite ?LocalTime_utc.
Qed.

Lemma setFullYear_utc d y : RelativeDate.setFullYear utcHost d y = setUTCFullYear d y.
Proof.
  unfold RelativeDate.setFullYear, setUTCFullYear.
  destruct (getTime d), y; simpl; by rewrite ?LocalTime_utc, ?UTC_utc.
Qed.
Lemma setMonth_utc d m : RelativeDate.setMonth utcHost d m = setUTCMonth d m.
Proof.
  unfold RelativeDate.setMonth, setUTCMonth.
  destruct (getTime d), m; simpl; by rewrite ?LocalTime_utc, ?UTC_utc.
Qed.
Lemma setDate_utc d x : RelativeDate.setDate utcHost d x = setUTCDate d x.
Proof.
  unfold RelativeDate.setDate, setUTCDate.
  destruct (getTime d), x; simpl; by rewrite ?LocalTime_utc, ?UTC_utc.
Qed.
Lemma setHours_utc d x : RelativeDate.setHours utcHost d x = setUTCHours d x.
Proof.
  unfold RelativeDate.setHours, setUTCHours.
  destruct (getTime d), x; simpl; by rewrite ?LocalTime_utc, ?UTC_utc.
Qed.
Lemma setMinutes_utc d x : RelativeDate.setMinutes utcHost d x = setUTCMinutes d x.
Proof.
  unfold RelativeDate.setMinutes, setUTCMinutes.
  destruct (getTime d), x; simpl; by rewrite ?LocalTime_utc, ?UTC_utc.
Qed.

(** On a host whose local time is UTC, the tests of
    [parseLinkedInRelative] on the unit and the [switch] of the page do
    the same to the date, spelling by spelling, [years] apart. *)
Lemma unit_dispatch_utc now u kind q :
  lookupKind unitMap u = Some kind ->
  RelativeDate.matchUnit u = Some u
  /\ RelativeDate.applyUnit utcHost (newDateOfDate now) u q
     = if str_eqb u (lit "years") then None else Some (shiftBack now kind q).
Proof.
  intros (forms & Hk & Hu)%lookupKind_elem. unfold unitMap in Hk.
  repeat (apply elem_of_cons in Hk as [Hk|Hk];
          [injection Hk as -> ->; cbn [map] in Hu;
           repeat (apply elem_of_cons in Hu as [->|Hu];
                   [split; [reflexivity|];
                    unfold RelativeDate.applyUnit; eval_closed_tests;
                    cbv beta iota;
                    rewrite ?getFullYear_utc, ?getMonth_utc, ?getDate_utc,
                      ?getHours_utc, ?getMinutes_utc, ?setFullYear_utc,
                      ?setMonth_utc, ?setDate_utc, ?setHours_utc,
                      ?setMinutes_utc;
                    reflexivity|]);
           by apply elem_of_nil in Hu|]).
  by apply elem_of_nil in Hk.
Qed.

(** X22.  The two parsers know the same spellings of the units: every
    spelling of the map of the page is an alternative of the pattern of
    [parseLinkedInRelative], matched whole, and every alternative of that
    pattern is a spelling of the map.  On a host whose local time is UTC,
    [parseLinkedInRelative] moves the date by a spelling as the [switch] of
    the page does, for every [now] and quantity, except for the spelling
    [years], which none of its tests on the unit accepts: there it returns
    a null [posted_at]. *)
Theorem unit_vocabulary_agrees :
  (forall u kind,
     lookupKind unitMap u = Some kind ->
     RelativeDate.matchUnit u = Some u
     /\ forall now q,
          RelativeDate.applyUnit utcHost (newDateOfDate now) u q
          = if str_eqb u (lit "years") then None
            else Some (shiftBack now kind q))
  /\ (forall s u,
        RelativeDate.matchUnit s = Some u ->
        exists kind, lookupKind unitMap u = Some kind).
Proof.
  split.
  - intros u kind Hk. split; [|intros now q].
    + exact (proj1 (unit_dispatch_utc (DateOfTime 0) u kind None Hk)).
    + exact (proj2 (unit_dispatch_utc now u kind q Hk)).
  - intros s u [Hin _]%find_some.
    unfold RelativeDate.unitAlternatives in Hin. cbn [map In] in Hin.
    repeat (destruct Hin as [<-|Hin]; [eexists; vm_compute; reflexivity|]).
    done.
Qed.

Lemma unit_vocabulary_agrees_witness :
  (RelativeDate.matchUnit (lit "wks") = Some (lit "wks")
   /\ forall now q,
        RelativeDate.applyUnit utcHost (newDateOfDate now) (lit "wks") q
        = if str_eqb (lit "wks") (lit "years") then None
          else Some (shiftBack now Kweek q))
  /\ exists kind, lookupKind unitMap (lit "hr") = Some kind.
Proof.
  destruct unit_vocabulary_agrees as [H1 H2]. split.
  - apply (H1 (lit "wks") Kweek). reflexivity.
  - apply (H2 (lit "hr ago") (lit "hr")). reflexivity.
Defined.

Lemma TimeClip_bounds x t : TimeClip x = Some t -> - maxTime <= t <= maxTime.
Proof.
  unfold TimeClip. destruct (Z.ltb_spec maxTime (Z.abs x)); [done|].
  intros [= <-]. lia.
Qed.

(** X23.  Whatever the host parser is, [parseDateSafe] never returns an
    Invalid Date: what it returns is null or a Date whose time value lies
    within 8.64e15 milliseconds of the epoch, and it returns null on the
    empty string. *)
Theorem parseDateSafe_valid host v d :
  parseDateSafe host v = Some d ->
  v <> [] /\ exists t, d = DateOfTime t /\ - maxTime <= t <= maxTime.
Proof.
  unfold parseDateSafe. destruct v as [|c v]; [done|].
  intros H. split; [done|].
  destruct (isoPattern (c :: v));
    match type of H with
    | (if isNaN (getTime ?dt) then _ else _) = _ =>
        destruct dt as [[t|]] eqn:E; simpl in H; [|done]
    end;
    injection H as <-; exists t; (split; [done|]);
    unfold newDateOfNum, newDateOfString in E; injection E as E;
    match type of E with
    | ?x ≫= TimeClip = _ => destruct x as [z|]; simpl in E; [|done]
    end; by eapply TimeClip_bounds.
Qed.

Lemma parseDateSafe_valid_witness :
  lit "2024-02-29" <> []
  /\ exists t, DateOfTime 1709164800000 = DateOfTime t /\ - maxTime <= t <= maxTime.
Proof.
  apply (parseDateSafe_valid noHostParse (lit "2024-02-29")). reflexivity.
Defined.

(** X24.  On a host whose local time is UTC, [toISODate] and
    [formatDateShort] write the same string for every valid Date.  They
    differ off the valid Dates: on an Invalid Date [toISODate] returns null
    and [formatDateShort] the string NaN-NaN-NaN, and on null [toISODate]
    returns null and [formatDateShort] the empty string. *)
Theorem toISODate_utc host t :
  toISODate utcHost (Some (DateOfTime t))
  = Some (formatDateShort host (Some (inl (DateOfTime t))))
  /\ toISODate utcHost (Some InvalidDate) = None
  /\ formatDateShort host (Some (inl InvalidDate)) = lit "NaN-NaN-NaN"
  /\ toISODate utcHost None = None
  /\ formatDateShort host None = [].
Proof.
  split; [|repeat split].
  unfold toISODate, formatDateShort. cbn [isNaN getTime DateOfTime].
  by rewrite getFullYear_utc, getMonth_utc, getDate_utc.
Qed.

End TwoParsers.

(* ===================================================================== *)
(** ** The relative phrases that parseLinkedInRelative recognizes *)
(* ===================================================================== *)

Section SiblingPhrases.

Lemma startsWith_word_digit (w : string) p0 p' c s :
  lit w = p0 :: p' -> isDigit p0 = false -> isDigit c = true ->
  startsWith (lit w) (c :: s) = false.
Proof.
  intros -> Hp Hc. simpl.
  replace (p0 =? c)%N with false; [done|].
  symmetry. apply N.eqb_neq. intros ->. congruence.
Qed.

Lemma removeAllFrom_digits pat ds X :
  (forall c s, isDigit c = true -> startsWith pat (c :: s) = false) ->
  Forall (fun c => isDigit c = true) ds ->
  RelativeDate.removeAllFrom pat 0 (ds ++ X) = ds ++ RelativeDate.removeAllFrom pat 0 X.
Proof.
  intros Hp. induction 1 as [|c ds Hc Hds IH]; [done|].
  change ((c :: ds) ++ X) with (c :: (ds ++ X)).
  cbn [RelativeDate.removeAllFrom]. rewrite (Hp c _ Hc), andb_false_r, IH. done.
Qed.

Lemma isWordChar_digit c : isDigit c = true -> RelativeDate.isWordChar c = true.
Proof. intros H. unfold RelativeDate.isWordChar. by rewrite H. Qed.

Lemma removeWordFrom_after_digit pat d X :
  isDigit d = true ->
  RelativeDate.removeWordFrom pat (Some d) 0 X
  = RelativeDate.removeWordFrom pat (Some 48%N) 0 X.
Proof.
  intros Hd. destruct X as [|c X]; [done|].
  cbn [RelativeDate.removeWordFrom]. unfold RelativeDate.wordBoundary at 1 3.
  cbn [from_option]. by rewrite (isWordChar_digit d Hd).
Qed.

Lemma removeWordFrom_digits pat prev ds X :
  (forall c s, isDigit c = true -> startsWith pat (c :: s) = false) ->
  ds <> [] -> Forall (fun c => isDigit c = true) ds ->
  RelativeDate.removeWordFrom pat prev 0 (ds ++ X)
  = ds ++ RelativeDate.removeWordFrom pat (Some 48%N) 0 X.
Proof.
  intros Hp Hne Hd. revert prev. induction Hd as [|c ds Hc Hds IH]; [done|].
  intros prev. rewrite <- !app_comm_cons.
  cbn [RelativeDate.removeWordFrom].
  rewrite (Hp c _ Hc), andb_false_r. cbn [andb]. f_equal.
  destruct ds as [|c' ds'].
  - by apply removeWordFrom_after_digit.
  - by apply IH.
Qed.

Lemma collapseWhite_digits ds X :
  Forall (fun c => isDigit c = true) ds ->
  RelativeDate.collapseWhite false (ds ++ X) = ds ++ RelativeDate.collapseWhite false X.
Proof.
  induction 1 as [|c ds Hc Hds IH]; [done|].
  change ((c :: ds) ++ X) with (c :: (ds ++ X)).
  cbn [RelativeDate.collapseWhite].
  rewrite not_white by (apply isDigit_range in Hc; lia). by rewrite IH.
Qed.

Lemma trim_digits_prefix ds Y :
  ds <> [] -> Forall (fun c => isDigit c = true) ds ->
  trimStart (rev Y) <> [] ->
  trim (ds ++ Y) = ds ++ trimEnd Y.
Proof.
  intros Hne Hd HY. destruct ds as [|d0 ds']; [done|].
  apply Forall_cons in Hd as [H0 _]. unfold trim.
  change ((d0 :: ds') ++ Y) with (d0 :: (ds' ++ Y)).
  rewrite trimStart_fixed by (apply not_white; apply isDigit_range in H0; lia).
  change (d0 :: (ds' ++ Y)) with ((d0 :: ds') ++ Y).
  unfold trimEnd. rewrite rev_app_distr, trimStart_app_nonblank by done.
  by rewrite rev_app_distr, rev_involutive.
Qed.

(** The normalization of [parseLinkedInRelative] leaves a leading quantity
    alone. *)
Lemma normalize_digits_prefix ds X :
  ds <> [] -> Forall (fun c => isDigit c = true) ds ->
  let Y :=
    RelativeDate.collapseWhite false
      (RelativeDate.removeWordFrom (lit "ago") (Some 48%N) 0
         (map (fun c => if (c =? 183)%N || (c =? 8226)%N then SPACE else c)
            (RelativeDate.removeAllFrom (lit "edited") 0 (toLowerCase X)))) in
  trimStart (rev Y) <> [] ->
  RelativeDate.normalize (ds ++ X) = ds ++ trimEnd Y.
Proof.
  intros Hne Hd Y HY. unfold RelativeDate.normalize.
  unfold toLowerCase at 1. rewrite map_app. fold (toLowerCase ds) (toLowerCase X).
  rewrite (toLowerCase_quiet ds) by by apply digit_quiet.
  rewrite removeAllFrom_digits;
    [|intros c s Hc; by apply (startsWith_word_digit "edited" 101%N (lit "dited"))|done].
  rewrite map_app.
  assert (map (fun c => if (c =? 183)%N || (c =? 8226)%N then SPACE else c) ds = ds) as ->.
  { clear Hne. induction Hd as [|c ds Hc Hds IH]; [done|]. cbn [map]. rewrite IH.
    apply isDigit_range in Hc.
    replace (c =? 183)%N with false by (symmetry; apply N.eqb_neq; lia).
    replace (c =? 8226)%N with false by (symmetry; apply N.eqb_neq; lia). done. }
  rewrite removeWordFrom_digits;
    [|intros c s Hc; by apply (startsWith_word_digit "ago" 97%N (lit "go"))|done|done].
  rewrite collapseWhite_digits by done.
  by apply trim_digits_prefix.
Qed.

Lemma digitsThen_charThen_absent lo extra ch k s :
  ch ∉ s ->
  RelativeDate.digitsThen lo extra (RelativeDate.charThen ch k) s = false.
Proof.
  revert s. induction lo as [|lo IHlo].
  - induction extra as [|extra IH]; intros [|c s] Hs; simpl; try done.
    + apply not_elem_of_cons in Hs as [Hc _].
      by replace (c =? ch)%N with false by (symmetry; apply N.eqb_neq; congruence).
    + apply not_elem_of_cons in Hs as [Hc Hs]. rewrite (IH s Hs), andb_false_r.
      by replace (c =? ch)%N with false by (symmetry; apply N.eqb_neq; congruence).
  - intros [|c s] Hs; simpl; [done|].
    apply not_elem_of_cons in Hs as [_ Hs]. by rewrite IHlo, andb_false_r.
Qed.

Lemma anywhere_absent lo extra ch k s :
  ch ∉ s ->
  RelativeDate.anywhere (RelativeDate.digitsThen lo extra (RelativeDate.charThen ch k)) s
  = false.
Proof.
  induction s as [|c s IH]; intros Hs; cbn [RelativeDate.anywhere];
    rewrite digitsThen_charThen_absent by done; [done|].
  apply not_elem_of_cons in Hs as [_ Hs]. by apply IH.
Qed.

Lemma takeDigits_app ds Y :
  Forall (fun c => isDigit c = true) ds -> takeDigits Y = [] ->
  takeDigits (ds ++ Y) = ds.
Proof.
  intros Hd HY. induction Hd as [|c ds Hc Hds IH]; [done|].
  simpl. by rewrite Hc, IH.
Qed.

Lemma matchQtyUnitHere_digits ds Y :
  ds <> [] -> Forall (fun c => isDigit c = true) ds -> takeDigits Y = [] ->
  RelativeDate.matchQtyUnitHere (ds ++ Y)
  = pair ds <$> (snd <$> RelativeDate.matchQtyUnitHere (48%N :: Y)).
Proof.
  intros Hne Hd HY. unfold RelativeDate.matchQtyUnitHere.
  rewrite takeDigits_app by done.
  assert (takeDigits (48%N :: Y) = [48%N]) as -> by (simpl; by rewrite HY).
  destruct ds as [|d0 ds']; [done|]. cbv zeta.
  rewrite drop_app_length. cbn [length drop].
  by destruct (RelativeDate.matchUnit _).
Qed.

(** What [parseLinkedInRelative] does with an input whose normal form is a
    quantity followed by text without a minus sign or a slash in which the
    pattern finds the unit [u] right after the quantity. *)
Lemma sibling_parse_normalized host tz v ds Y u now :
  v <> [] ->
  RelativeDate.normalize v = ds ++ Y ->
  ds <> [] -> Forall (fun c => isDigit c = true) ds ->
  forallb (fun c => negb ((c =? MINUS)%N || (c =? 47)%N)) Y = true ->
  takeDigits Y = [] ->
  snd <$> RelativeDate.matchQtyUnitHere (48%N :: Y) = Some u ->
  RelativeDate.parseLinkedInRelative host tz v now
  = RelativeDate.applyUnit tz (newDateOfDate now) u (Some (digitsValue ds)).
Proof.
  intros Hv E Hne Hd Hfree HY Hu.
  unfold RelativeDate.parseLinkedInRelative. destruct v as [|c0 v0]; [done|].
  rewrite E. destruct ds as [|d0 ds'] eqn:Eds; [done|]. rewrite <- Eds in *.
  assert (isDigit d0 = true) as H0 by (subst ds; by apply Forall_cons in Hd as [? _]).
  assert (forall ch, (ch = MINUS \/ ch = 47%N) -> ch ∉ ds ++ Y) as Habs.
  { intros ch Hch Hin. apply elem_of_app in Hin as [Hin|Hin].
    - rewrite Forall_forall in Hd. apply Hd, isDigit_range in Hin.
      unfold MINUS in Hch. lia.
    - rewrite forallb_forall in Hfree. apply list_elem_of_In, Hfree in Hin.
      apply negb_true_iff, orb_false_iff in Hin as [?%N.eqb_neq ?%N.eqb_neq].
      by destruct Hch. }
  assert (forall w c1 w', lit w = c1 :: w' -> isDigit c1 = false ->
            str_eqb (ds ++ Y) (lit w) = false) as Hdiff.
  { intros w c1 w' Hw Hc. rewrite Eds. by eapply head_digit_differs. }
  rewrite (Hdiff "just now"%string _ _ eq_refl eq_refl).
  rewrite (Hdiff "now"%string _ _ eq_refl eq_refl).
  unfold RelativeDate.looksIso, RelativeDate.looksSlashed.
  rewrite !anywhere_absent by (apply Habs; tauto).
  cbn [orb].
  assert (RelativeDate.matchQtyUnit (ds ++ Y) = Some (ds, u)) as ->.
  { pose proof (matchQtyUnitHere_digits ds Y Hne Hd HY) as M.
    rewrite Hu in M. rewrite Eds in *.
    change ((d0 :: ds') ++ Y) with (d0 :: (ds' ++ Y)) in *.
    cbn [RelativeDate.matchQtyUnit]. by rewrite M. }
  by rewrite parseInt10_digits.
Qed.

(** X25.  On a host whose local time is UTC and with any host parser,
    [parseLinkedInRelative] recognizes the same phrases: a quantity in
    decimal digits, a unit of the map in any of its spellings, with or
    without one space between the two and with or without [ago] after it.
    Its [posted_at] is [now] moved back as the [switch] of the page moves
    it, except with the spelling [years], on which it is null. *)
Theorem sibling_phrase_forms host ds u kind sep tail now :
  ds <> [] -> Forall (fun c => isDigit c = true) ds ->
  lookupKind unitMap u = Some kind ->
  (sep = [] \/ sep = [SPACE]) ->
  (tail = [] \/ tail = SPACE :: lit "ago") ->
  RelativeDate.parseLinkedInRelative host utcHost (ds ++ sep ++ u ++ tail) now
  = if str_eqb u (lit "years") then None
    else Some (shiftBack now kind (Some (digitsValue ds))).
Proof.
  intros Hne Hd Hk Hsep Htail.
  rewrite <- (proj2 (unit_dispatch_utc now u kind (Some (digitsValue ds)) Hk)).
  apply lookupKind_elem in Hk as (forms & Hk & Hu). unfold unitMap in Hk.
  repeat (apply elem_of_cons in Hk as [Hk|Hk];
          [injection Hk as -> ->; cbn [map] in Hu;
           repeat (apply elem_of_cons in Hu as [->|Hu];
                   [destruct Hsep as [->| ->], Htail as [->| ->];
                    (eapply sibling_parse_normalized;
                     [by destruct ds
                     |apply normalize_digits_prefix; [done|done|by vm_compute]
                     |done|done
                     |vm_compute; reflexivity
                     |vm_compute; reflexivity
                     |vm_compute; reflexivity])|]);
           by apply elem_of_nil in Hu|]).
  by apply elem_of_nil in Hk.
Qed.

Lemma sibling_phrase_forms_witness :
  RelativeDate.parseLinkedInRelative noHostParse utcHost
    (lit "12" ++ [SPACE] ++ lit "wks" ++ SPACE :: lit "ago") (DateOfTime jan15)
  = if str_eqb (lit "wks") (lit "years") then None
    else Some (shiftBack (DateOfTime jan15) Kweek (Some (digitsValue (lit "12")))).
Proof.
  apply (sibling_phrase_forms noHostParse (lit "12") (lit "wks") Kweek [SPACE]
           (SPACE :: lit "ago"));
    first [done | by repeat constructor | by left | by right].
Defined.

End SiblingPhrases.

(* ===================================================================== *)
(** ** Edges: a day that the month reached does not have, runs of spaces *)
(* ===================================================================== *)

Section Edges.

Lemma DaysInMonth_range y m : 28 <= DaysInMonth y m <= 31.
Proof. unfold DaysInMonth. repeat case_match; lia. Qed.

(** A day past the end of a month is a day of the month after it. *)
Lemma MakeDay_next_month y m d :
  0 <= m <= 11 ->
  MakeDay y m d = MakeDay y (m + 1) (d - DaysInMonth y (m + 1)).
Proof.
  intros Hm. unfold MakeDay, DaysInMonth.
  replace (m / 12) with 0 by (Z.div_mod_to_equations; lia).
  replace (m mod 12) with m by (Z.div_mod_to_equations; lia).
  rewrite Z.add_0_r.
  destruct (Z.eq_dec m 11) as [->|Hne].
  - change ((11 + 1) / 12) with 1. change ((11 + 1) mod 12) with 0.
    rewrite DayFromYear_step.
    destruct (leap_cases y) as [[L1 L2]|[L1 L2]]; rewrite L2, L1;
      eval_monthStart; change (11 + 1 =? 2) with false;
      change ((11 + 1 =? 4) || (11 + 1 =? 6) || (11 + 1 =? 9) || (11 + 1 =? 11))
        with false; cbv iota; lia.
  - replace ((m + 1) / 12) with 0 by (Z.div_mod_to_equations; lia).
    replace ((m + 1) mod 12) with (m + 1) by (Z.div_mod_to_equations; lia).
    rewrite Z.add_0_r.
    assert (1 <= m + 1 <= 12) as Hm1 by lia.
    destruct (leap_cases y) as [[L1 L2]|[L1 L2]]; rewrite L2;
      destruct (month_cases (m + 1) Hm1)
        as [E|[E|[E|[E|[E|[E|[E|[E|[E|[E|[E|E]]]]]]]]]]];
      rewrite E;
      match type of E with _ = ?k => assert (m = k - 1) as -> by lia end;
      eval_monthStart;
      repeat match goal with
             | |- context [?a =? ?b] =>
                 let v := eval vm_compute in (a =? b) in
                 change (a =? b) with v
             end;
      cbv iota beta; cbn [orb]; lia.
Qed.

(** X26.  For months, when the result is a valid Date and the month
    reached is too short for the day of the month of [now] (31 March less
    one month), the result is not in the month reached: it is in the month
    after it, on the day that remains after the length of the month
    reached, at the same time of day. *)
Theorem shiftBack_months_overflow T n t' :
  getTime (shiftBack (DateOfTime T) Kmonth (Some n)) = Some t' ->
  DaysInMonth (YearFromTime T + (MonthFromTime T - n) / 12)
    ((MonthFromTime T - n) mod 12 + 1) < DateFromTime T ->
  YearFromTime t'
  = YearFromTime T + (MonthFromTime T - n) / 12
    + ((MonthFromTime T - n) mod 12 + 1) / 12
  /\ MonthFromTime t' = ((MonthFromTime T - n) mod 12 + 1) mod 12
  /\ DateFromTime t'
     = DateFromTime T
       - DaysInMonth (YearFromTime T + (MonthFromTime T - n) / 12)
           ((MonthFromTime T - n) mod 12 + 1)
  /\ TimeWithinDay t' = TimeWithinDay T.
Proof.
  unfold shiftBack, setUTCMonth, getUTCMonth, num_sub. simpl.
  intros ->%TimeClip_Some Hd. rewrite MakeDay_carry.
  set (y := YearFromTime T + (MonthFromTime T - n) / 12) in *.
  set (m := (MonthFromTime T - n) mod 12) in *.
  assert (0 <= m <= 11) as Hm by (subst m; Z.div_mod_to_equations; lia).
  rewrite (MakeDay_next_month y m) by done. rewrite MakeDay_carry.
  pose proof (DateFromTime_range T). pose proof (DaysInMonth_range y (m + 1)).
  pose proof (DaysInMonth_range (y + (m + 1) / 12) ((m + 1) mod 12 + 1)).
  apply MakeDate_fields.
  - Z.div_mod_to_equations. lia.
  - lia.
  - apply TimeWithinDay_range.
Qed.

Lemma shiftBack_months_overflow_witness :
  YearFromTime 1709337600000 = 2024 + (2 - 1) / 12 + ((2 - 1) mod 12 + 1) / 12
  /\ MonthFromTime 1709337600000 = ((2 - 1) mod 12 + 1) mod 12
  /\ DateFromTime 1709337600000 = 31 - 29
  /\ TimeWithinDay 1709337600000 = 0.
Proof.
  apply (shiftBack_months_overflow 1711843200000 1 1709337600000);
    vm_compute; reflexivity.
Defined.

Lemma replaceDoubleSpace_None_adjacent s i :
  replaceDoubleSpace s = None -> s !! i = Some SPACE -> s !! S i <> Some SPACE.
Proof.
  revert i. induction s as [|c s IH]; intros i; [done|].
  destruct s as [|c' s']; [by destruct i|].
  change (replaceDoubleSpace (c :: c' :: s'))
    with (if (c =? SPACE)%N && (c' =? SPACE)%N then Some (c :: s')
          else cons c <$> replaceDoubleSpace (c' :: s')).
  destruct ((c =? SPACE)%N && (c' =? SPACE)%N) eqn:E; [done|].
  intros Hn. destruct (replaceDoubleSpace (c' :: s')) eqn:E'; [done|].
  destruct i as [|i].
  - cbn. intros [= ->] [= ->]. by rewrite N.eqb_refl in E.
  - apply (IH i eq_refl).
Qed.

Lemma replaceDoubleSpace_keeps s s' :
  replaceDoubleSpace s = Some s' ->
  List.filter (fun c => negb (c =? SPACE)%N) s'
  = List.filter (fun c => negb (c =? SPACE)%N) s.
Proof.
  revert s'. induction s as [|c s IH]; intros r; [done|].
  destruct s as [|c' s']; [done|].
  change (replaceDoubleSpace (c :: c' :: s'))
    with (if (c =? SPACE)%N && (c' =? SPACE)%N then Some (c :: s')
          else cons c <$> replaceDoubleSpace (c' :: s')).
  destruct ((c =? SPACE)%N && (c' =? SPACE)%N) eqn:E.
  - apply andb_prop in E as [E1 E2]. intros [= <-].
    cbn [List.filter]. by rewrite E1, E2.
  - destruct (replaceDoubleSpace (c' :: s')) as [r'|]; [|done].
    intros [= <-]. cbn [List.filter]. rewrite (IH r' eq_refl). done.
Qed.

Lemma collapseLoop_keeps fuel s :
  List.filter (fun c => negb (c =? SPACE)%N) (collapseLoop fuel s)
  = List.filter (fun c => negb (c =? SPACE)%N) s.
Proof.
  revert s. induction fuel as [|fuel IH]; intros s; simpl; [done|].
  destruct (replaceDoubleSpace s) as [s'|] eqn:E; [|done].
  rewrite IH. by apply replaceDoubleSpace_keeps.
Qed.

(** X27.  The [while] loop that collapses the spaces ends on every string:
    in what it leaves no space is followed by a space, and the code units
    other than the space are those of the input, in their order. *)
Theorem collapseSpaces_spec s :
  (forall i, collapseSpaces s !! i = Some SPACE ->
             collapseSpaces s !! S i <> Some SPACE)
  /\ List.filter (fun c => negb (c =? SPACE)%N) (collapseSpaces s)
     = List.filter (fun c => negb (c =? SPACE)%N) s.
Proof.
  split.
  - intros i. apply replaceDoubleSpace_None_adjacent, collapseSpaces_done.
  - apply collapseLoop_keeps.
Qed.

Lemma collapseSpaces_spec_witness :
  collapseSpaces (lit "2   h") !! 2%nat <> Some SPACE.
Proof.
  apply (proj1 (collapseSpaces_spec (lit "2   h")) 1%nat). reflexivity.
Defined.

End Edges.
